(** * fuels-ts: argument resolution and configurable-constant patching

    A shallow embedding of
      - packages/program/src/contract.ts   (class [Contract])
      - packages/predicate/src/predicate.ts (class [Predicate], two snapshots)
    together with the properties of the natural-language specification that
    concern them.

    Conventions.  A JavaScript [throw] is a [Throw e] result, a normal return
    is [Ok v].  A [Uint8Array] is the list of its bytes; a function that
    mutates its buffer in place returns the contents of that buffer when it
    stops, next to its outcome.  The entries of a plain object are the
    association list [Object.entries] yields, in that order. *)

From stdpp Require Import base option list sorting finite gmap strings.
From Stdlib Require Import ZArith Lia Strings.Byte Strings.Ascii.

Local Open Scope Z_scope.

(** ** Results of computations that may throw *)

Inductive result (E A : Type) : Type :=
| Ok (a : A)
| Throw (e : E).
Arguments Ok {E A} a.
Arguments Throw {E A} e.

(** Sequencing: a throw skips what follows.  With these instances the code
    below is written with stdpp's [x ← m; k]. *)
#[global] Instance result_ret {E} : MRet (result E) := λ _ a, Ok a.
#[global] Instance result_bind {E} : MBind (result E) := λ _ _ k m,
  match m with
  | Ok a => k a
  | Throw e => Throw e
  end.

(** [try { m } catch (e) { throw f(e) }] *)
Definition rethrow {E E' A} (f : E → E') (m : result E A) : result E' A :=
  match m with
  | Ok a => Ok a
  | Throw e => Throw (f e)
  end.

Definition succeeds {E A} (m : result E A) : Prop := ∃ a, m = Ok a.
Definition fails {E A} (m : result E A) : Prop := ∃ e, m = Throw e.

(** ** The JavaScript built-ins the two files rely on *)

Module Js.

Abbreviation Uint8Array := (list Byte.byte).

Inductive RangeError : Type := offset_is_out_of_bounds.

(** [target.set(source, offset)] (%TypedArray%.prototype.set): a negative
    offset, or a source that does not fit between [offset] and the end of
    the target, throws a RangeError and writes nothing; otherwise the
    source overwrites [length source] elements from [offset] on.  The
    length of a typed array never changes. *)
Definition set (target source : Uint8Array) (offset : Z)
  : result RangeError Uint8Array :=
  if bool_decide (offset < 0
                  ∨ Z.of_nat (length target) < offset + Z.of_nat (length source))
  then Throw offset_is_out_of_bounds
  else Ok (take (Z.to_nat offset) target ++ source
             ++ drop (Z.to_nat offset + length source) target).

(** [names.indexOf(x)]: the first index holding [x], or -1. *)
Definition indexOf (names : list string) (x : string) : Z :=
  match list_find (λ y, y = x) names with
  | Some (i, _) => Z.of_nat i
  | None => -1
  end.

(** [array.find(p)] *)
Definition find {A} (p : A → bool) (l : list A) : option A :=
  snd <$> list_find (λ y, p y = true) l.

(** [array.sort(compare)].  The sort is stable, and [compare a b <= 0]
    keeps [a] before [b]; for a comparator that orders by a key the result
    is the one this insertion sort computes.  The comparator is JavaScript
    code and may throw, which aborts the sort; it is not called on an array
    of fewer than two elements. *)
Fixpoint sort_insert {E A} (compare : A → A → result E Z) (x : A) (l : list A)
  : result E (list A) :=
  match l with
  | [] => Ok [x]
  | y :: l' =>
      c ← compare x y;
      if c <=? 0 then Ok (x :: y :: l')
      else l'' ← sort_insert compare x l'; Ok (y :: l'')
  end.

Definition sort {E A} (compare : A → A → result E Z) (l : list A)
  : result E (list A) :=
  foldr (λ x acc, sorted ← acc; sort_insert compare x sorted) (Ok []) l.

(** A plain object, as the list [Object.entries] returns. *)
Abbreviation object V := (list (string * V)).

Definition keys {V} (obj : object V) : list string := obj.*1.

(** Property names of an object are pairwise different. *)
Definition object_wf {V} (obj : object V) : Prop := NoDup (keys obj).

(** [obj[key]] *)
Definition get {V} (obj : object V) (key : string) : option V :=
  (λ r : nat * (string * V), r.2.2) <$> list_find (λ e, e.1 = key) obj.

(** The names every plain object inherits from [Object.prototype].  Reading
    one of them on an object that has no property of that name of its own
    yields the inherited value, a function (for [__proto__], the prototype
    itself): a value that is not [undefined] and counts as true. *)
Definition Object_prototype : list string :=
  ["constructor"; "__defineGetter__"; "__defineSetter__"; "hasOwnProperty";
   "__lookupGetter__"; "__lookupSetter__"; "isPrototypeOf";
   "propertyIsEnumerable"; "toString"; "valueOf"; "__proto__";
   "toLocaleString"].

End Js.

(** ** The ABI coder ([@fuel-ts/abi-coder]), seen from its callers *)

(** The types the coder exchanges with the two classes.  Their contents are
    the coder's business; the classes only pass them along. *)
Class AbiTypes : Type := {
  JsonAbi : Type;
  JsonAbiFragmentType : Type;
  InputValue : Type;
  CoderFailure : Type;
}.

Module Abi.
Section types.
Context `{AbiTypes}.

(** Modelled from the spec: the classes of [@fuel-ts/abi-coder] are not part
    of the sources at hand.  A function fragment has a name and an ordered
    parameter list. *)
Record FunctionFragment : Type := {
  name : string;
  inputs : list JsonAbiFragmentType;
}.

(** Modelled from the spec: a configurable slot has a declared type and a
    byte offset into the bytecode. *)
Record Configurable : Type := {
  fragmentType : JsonAbiFragmentType;
  offset : Z;
}.

(** One input of a function of the flat JSON ABI. *)
Record JsonFlatAbiFragmentArgument : Type := {
  arg_name : string;
  arg_type : Z;
}.

(** One function of the flat JSON ABI. *)
Record JsonFlatAbiFragmentFunction : Type := {
  fn_name : string;
  fn_inputs : list JsonFlatAbiFragmentArgument;
}.

Record JsonFlatAbi : Type := {
  functions : list JsonFlatAbiFragmentFunction;
}.

(** Modelled from the spec: the interface descriptor indexes the function
    fragments and the configurable slots of an ABI; [abi] is the flat JSON
    ABI it was built from, when there is one. *)
Record Interface : Type := {
  fragments : list FunctionFragment;
  configurables : gmap string Configurable;
  abi : option JsonFlatAbi;
}.
End types.
End Abi.

(** The operations of the coder the classes call. *)
Class AbiCoder `{AbiTypes} : Type := {
  (** [new AbiCoder().getCoder(fragmentType).encode(value)] *)
  encode : JsonAbiFragmentType → InputValue → result CoderFailure Js.Uint8Array;
  (** [new Interface(jsonAbi)] *)
  new_Interface : JsonAbi → result CoderFailure Abi.Interface;
}.

(** Modelled from the spec: the codec boundary, seen from an invocation: the
    encoding of an argument vector against the parameters of a fragment into
    call data.  The coder is not part of the sources at hand. *)
Class CallCoder `{AbiTypes} (V : Type) : Type := {
  encodeArguments :
    list JsonAbiFragmentType → list V → result CoderFailure Js.Uint8Array;
}.

(** ** packages/program/src/contract.ts *)

Module Contract.
Section contract.
Context `{AbiTypes}.
(** [Address], [Provider], [Account]: owned by other packages; [V] is the
    type of an argument value ([unknown] in the source). *)
Context {Address Provider Account V : Type}.
Context `{!CallCoder V}.

Record Contract : Type := {
  id : Address;
  provider : Provider;
  interface : Abi.Interface;
  account : option Account;
}.

(** Modelled from the spec: ./functions/invocation-scope is not part of the
    sources at hand.  An invocation scope owns a target, a function fragment,
    an argument vector and the call data encoded from it. *)
Record FunctionInvocationScope : Type := {
  program : Contract;
  func : Abi.FunctionFragment;
  args : list V;
  callData : Js.Uint8Array;
}.

(** [args: unknown[] | object | undefined] *)
Inductive Args : Type :=
| ArgsArray (a : list V)
| ArgsObject (obj : Js.object V)
| ArgsUndefined.

(** Reading [indexOf] of [undefined]. *)
Inductive TypeError : Type := cannot_read_properties_of_undefined.

(** What a call of a built function can throw. *)
Inductive Error : Type :=
(** thrown by the comparator of [_mapObjIntoArgsArray] *)
| type_error (e : TypeError)
(** the argument sequence has not the length of the parameter list *)
| ArityMismatch
(** thrown by the coder *)
| codec_error (e : CoderFailure).

(** Modelled from the spec: the argument resolver on an ordered sequence,
    which passes it through unchanged except for arity validation: its
    length must be that of the parameter list of the fragment. *)
Definition resolveSequence (func : Abi.FunctionFragment) (args : list V)
  : result Error (list V) :=
  if bool_decide (length args = length (Abi.inputs func)) then Ok args
  else Throw ArityMismatch.

(** Modelled from the spec: [new FunctionInvocationScope(program, func, args)]
    of ./functions/invocation-scope, which is not part of the sources at
    hand.  Construction calls the argument resolver, then encodes the
    argument vector with the coder into call data; a failure of the resolver
    or of the coder propagates unchanged. *)
Definition new_FunctionInvocationScope (program : Contract)
  (func : Abi.FunctionFragment) (args : list V)
  : result Error FunctionInvocationScope :=
  args ← resolveSequence func args;
  callData ← rethrow codec_error (encodeArguments (Abi.inputs func) args);
  Ok {| program := program; func := func; args := args; callData := callData |}.

(** [this.interface.abi?.functions.find((fn) => fn.name === func.name)] *)
Definition abiFunction (this : Contract) (func : Abi.FunctionFragment)
  : option Abi.JsonFlatAbiFragmentFunction :=
  a ← Abi.abi (interface this);
  Js.find (λ fn, String.eqb (Abi.fn_name fn) (Abi.name func)) (Abi.functions a).

(** [abiFunction?.inputs.map((x) => x.name)] *)
Definition orderedArgNames (this : Contract) (func : Abi.FunctionFragment)
  : option (list string) :=
  (λ fn, Abi.arg_name <$> Abi.fn_inputs fn) <$> abiFunction this func.

(** [(a, b) => orderedArgNames!.indexOf(a[0]) - orderedArgNames!.indexOf(b[0])] *)
Definition compareEntries (orderedArgNames : option (list string))
  (a b : string * V) : result TypeError Z :=
  match orderedArgNames with
  | Some names => Ok (Js.indexOf names a.1 - Js.indexOf names b.1)
  | None => Throw cannot_read_properties_of_undefined
  end.

Definition _mapObjIntoArgsArray (this : Contract) (func : Abi.FunctionFragment)
  (obj : option (Js.object V)) : result TypeError (list V) :=
  match obj with
  | None => Ok []
  | Some obj =>
      sorted ← Js.sort (compareEntries (orderedArgNames this func)) obj;
      Ok (sorted.*2)
  end.

Definition buildFunction (this : Contract) (func : Abi.FunctionFragment)
  (args : Args) : result Error FunctionInvocationScope :=
  match args with
  | ArgsArray a => new_FunctionInvocationScope this func a
  | ArgsObject obj =>
      a ← rethrow type_error (_mapObjIntoArgsArray this func (Some obj));
      new_FunctionInvocationScope this func a
  | ArgsUndefined =>
      a ← rethrow type_error (_mapObjIntoArgsArray this func None);
      new_FunctionInvocationScope this func a
  end.

End contract.
Arguments Contract {_} _ _ _.
Arguments FunctionInvocationScope {_} _ _ _ _.
Arguments Args _ : clear implicits.
End Contract.

(** ** What predicate.ts takes from other packages *)

(** [@ethersproject/bytes]: [arrayify] returns a fresh [Uint8Array] with the
    bytes of its argument. *)
Definition arrayify (bytes : Js.Uint8Array) : Js.Uint8Array := bytes.

(** Roots and addresses. *)
Class Identity : Type := {
  B256 : Type;
  B256_eq_dec :: EqDecision B256;
  Address : Type;
  Provider : Type;
  (** Modelled from the spec: ./utils is not part of the sources at hand.
      [getContractRoot bytecode chainId] is the content-derived root of a
      bytecode blob for a chain. *)
  getContractRoot : Js.Uint8Array → Z → B256;
  (** The root of the older snapshot, which takes no chain id. *)
  getContractRoot_legacy : Js.Uint8Array → B256;
  (** [Address.fromB256], [Bech32.fromB256] *)
  Address_fromB256 : B256 → Address;
  (** [address.toB256()], [Bech32.toB256(address)] *)
  Address_toB256 : Address → B256;
}.

(** The parts of a transaction request that the predicate does not look at. *)
Class TransactionTypes : Type := {
  BytesLike : Type;
  CoinFields : Type;
  ContractFields : Type;
  MessageFields : Type;
  RequestFields : Type;
  TransactionRequestLike : Type;
}.

Module Tx.
Section types.
Context `{TransactionTypes}.

(** [InputType] of [@fuel-ts/transactions] *)
Inductive InputType : Type := Coin | Contract | Message.

Record CoinTransactionRequestInput : Type := {
  owner : BytesLike;
  predicate : option Js.Uint8Array;
  predicateData : option Js.Uint8Array;
  coin_fields : CoinFields;
}.

(** An input is tagged by its [type]. *)
Inductive TransactionRequestInput : Type :=
| CoinInput (c : CoinTransactionRequestInput)
| ContractInput (c : ContractFields)
| MessageInput (m : MessageFields).

Definition type (input : TransactionRequestInput) : InputType :=
  match input with
  | CoinInput _ => Coin
  | ContractInput _ => Contract
  | MessageInput _ => Message
  end.

Record TransactionRequest : Type := {
  inputs : option (list TransactionRequestInput);
  request_fields : RequestFields;
}.
End types.
End Tx.

(** [hexlify] of [@ethersproject/bytes] and [transactionRequestify] of
    [@fuel-ts/providers].  Both throw on arguments they do not accept: data
    that are no hex string and no bytes, a request of an unknown type. *)
Class Providers `{Identity, TransactionTypes} : Type := {
  ProviderFailure : Type;
  hexlify : BytesLike → result ProviderFailure B256;
  transactionRequestify :
    TransactionRequestLike → result ProviderFailure Tx.TransactionRequest;
}.

(** ** packages/predicate/src/predicate.ts, current snapshot *)

Module Predicate.
Section predicate.
Context `{AbiCoder, Identity, !TransactionTypes, !Providers}.

(** What can go wrong while the configurable constants are written. *)
Inductive ConfigurableError : Type :=
| instantiated_without_json_ABI
| no_configurable_constants_to_be_set
| no_configurable_constant_named (key : string)
| coder_error (e : CoderFailure)
| range_error (e : Js.RangeError)
(** the TypeError of the coder reading the type of an [undefined] fragment *)
| fragment_type_undefined.

Inductive Error : Type :=
(** [logger.throwArgumentError('Cannot use ABI without main function',
    'Function fragments', fragments)] *)
| ArgumentError (fragments : list Abi.FunctionFragment)
(** thrown by [new Interface] *)
| InterfaceError (e : CoderFailure)
(** [new Error(`Error setting configurable constants: ${err}`)] *)
| Error_setting_configurable_constants (err : ConfigurableError).

Record Predicate : Type := {
  address : Address;
  provider : option Provider;
  bytes : Js.Uint8Array;
  jsonAbi : list JsonAbiFragmentType;
  predicateData : Js.Uint8Array;
  interface : option Abi.Interface;
  isBuiltByFuelFactory : bool;
}.

(** The callback of [Object.entries(configurableConstants).forEach]: the new
    contents of [mutatedBytes], or what it throws.  Nothing is written when it
    throws.  [abiInterface.configurables] is a plain object: for a key that
    is no configurable but a name inherited from [Object.prototype], the
    value read is not [undefined], the test [!abiInterface?.configurables[key]]
    lets it pass, [fragmentType] and [offset] are [undefined], and the coder
    throws a TypeError. *)
Definition setConfigurableConstant (abiInterface : Abi.Interface)
  (mutatedBytes : Js.Uint8Array) (entry : string * InputValue)
  : result ConfigurableError Js.Uint8Array :=
  let '(key, value) := entry in
  match Abi.configurables abiInterface !! key with
  | None =>
      if bool_decide (key ∈ Js.Object_prototype)
      then Throw fragment_type_undefined
      else Throw (no_configurable_constant_named key)
  | Some c =>
      encoded ← rethrow coder_error (encode (Abi.fragmentType c) value);
      rethrow range_error (Js.set mutatedBytes encoded (Abi.offset c))
  end.

(** [forEach] over the entries: the contents of [mutatedBytes] when the loop
    stops, and how it stopped. *)
Fixpoint forEachConfigurable (abiInterface : Abi.Interface)
  (entries : Js.object InputValue) (mutatedBytes : Js.Uint8Array)
  : Js.Uint8Array * result ConfigurableError () :=
  match entries with
  | [] => (mutatedBytes, Ok ())
  | entry :: entries' =>
      match setConfigurableConstant abiInterface mutatedBytes entry with
      | Ok mutatedBytes' => forEachConfigurable abiInterface entries' mutatedBytes'
      | Throw err => (mutatedBytes, Throw err)
      end
  end.

(** [setConfigurableConstants]: [mutatedBytes] is [bytes] itself, so the
    first component is the contents of the caller's buffer afterwards; on
    [Ok] the function returns that same buffer. *)
Definition setConfigurableConstants (bytes : Js.Uint8Array)
  (configurableConstants : Js.object InputValue)
  (abiInterface : option Abi.Interface)
  : Js.Uint8Array * result Error () :=
  let mutatedBytes := bytes in
  let '(mutatedBytes, outcome) :=
    match abiInterface with
    | None => (mutatedBytes, Throw instantiated_without_json_ABI)
    | Some abiInterface =>
        if bool_decide (size (Abi.configurables abiInterface) = 0%nat)
        then (mutatedBytes, Throw no_configurable_constants_to_be_set)
        else forEachConfigurable abiInterface configurableConstants mutatedBytes
    end in
  (mutatedBytes, rethrow Error_setting_configurable_constants outcome).

Definition processPredicateData (bytes : Js.Uint8Array)
  (jsonAbi : option JsonAbi)
  (configurableConstants : option (Js.object InputValue))
  : result Error (Js.Uint8Array * option (list JsonAbiFragmentType)
                  * option Abi.Interface) :=
  let predicateBytes := arrayify bytes in
  '(predicateTypes, predicateInterface) ←
    match jsonAbi with
    | Some jsonAbi =>
        predicateInterface ← rethrow InterfaceError (new_Interface jsonAbi);
        match Js.find (λ f, String.eqb (Abi.name f) "main")
                (Abi.fragments predicateInterface) with
        | Some mainFunction =>
            Ok (Some (Abi.inputs mainFunction), Some predicateInterface)
        | None => Throw (ArgumentError (Abi.fragments predicateInterface))
        end
    | None => Ok (None, None)
    end;
  predicateBytes ←
    match configurableConstants with
    | Some configurableConstants =>
        if negb (Nat.eqb (length (Js.keys configurableConstants)) 0)
        then
          let '(mutatedBytes, outcome) :=
            setConfigurableConstants predicateBytes configurableConstants
              predicateInterface in
          _ ← outcome; Ok mutatedBytes
        else Ok predicateBytes
    | None => Ok predicateBytes
    end;
  Ok (predicateBytes, predicateTypes, predicateInterface).

Definition constructor (bytes : Js.Uint8Array) (chainId : Z)
  (jsonAbi : option JsonAbi) (provider : option Provider)
  (configurableConstants : option (Js.object InputValue))
  (isBuiltByFuelFactory : bool) : result Error Predicate :=
  '(predicateBytes, predicateTypes, predicateInterface) ←
    processPredicateData bytes jsonAbi configurableConstants;
  let address := Address_fromB256 (getContractRoot predicateBytes chainId) in
  Ok {| address := address;
        provider := provider;
        isBuiltByFuelFactory := isBuiltByFuelFactory;
        bytes := predicateBytes;
        jsonAbi := default [] predicateTypes;
        predicateData := [];
        interface := predicateInterface |}.

(** The body of [request.inputs?.forEach]: the input as the callback leaves
    it, or what [hexlify] throws.  [hexlify] is called for coin inputs only. *)
Definition populateInput (this : Predicate) (input : Tx.TransactionRequestInput)
  : result ProviderFailure Tx.TransactionRequestInput :=
  match input with
  | Tx.CoinInput c =>
      owner ← hexlify (Tx.owner c);
      if bool_decide (owner = Address_toB256 (address this))
      then Ok (Tx.CoinInput
                 {| Tx.owner := Tx.owner c;
                    Tx.predicate := Some (bytes this);
                    Tx.predicateData := Some (predicateData this);
                    Tx.coin_fields := Tx.coin_fields c |})
      else Ok input
  | _ => Ok input
  end.

(** [forEach] over the inputs, which are changed in place: the inputs when
    the loop stops, and how it stopped.  When the callback throws, the
    inputs before have been populated and the others are as they were. *)
Fixpoint forEachInput (this : Predicate)
  (inputs : list Tx.TransactionRequestInput)
  : list Tx.TransactionRequestInput * result ProviderFailure () :=
  match inputs with
  | [] => ([], Ok ())
  | input :: inputs' =>
      match populateInput this input with
      | Ok input' =>
          let '(rest, outcome) := forEachInput this inputs' in
          (input' :: rest, outcome)
      | Throw e => (input :: inputs', Throw e)
      end
  end.

Definition populateTransactionPredicateData (this : Predicate)
  (transactionRequestLike : TransactionRequestLike)
  : result ProviderFailure Tx.TransactionRequest :=
  request ← transactionRequestify transactionRequestLike;
  match Tx.inputs request with
  | Some inputs =>
      let '(inputs', outcome) := forEachInput this inputs in
      _ ← outcome;
      Ok {| Tx.inputs := Some inputs';
            Tx.request_fields := Tx.request_fields request |}
  | None => Ok request
  end.

End predicate.
End Predicate.

(** ** packages/predicate/src/predicate.ts, older snapshot *)

Module Predicate0.
Section predicate.
Context `{AbiCoder, Identity}.

Inductive Error : Type :=
| ArgumentError (fragments : list Abi.FunctionFragment)
| InterfaceError (e : CoderFailure).

Record Predicate : Type := {
  address : Address;
  provider : option Provider;
  bytes : Js.Uint8Array;
  types : option (list JsonAbiFragmentType);
  predicateData : Js.Uint8Array;
  interface : option Abi.Interface;
}.

Definition constructor (bytes : Js.Uint8Array) (types : option JsonAbi)
  (provider : option Provider) : result Error Predicate :=
  let address := Address_fromB256 (getContractRoot_legacy bytes) in
  let this_bytes := arrayify bytes in
  match types with
  | Some types =>
      this_interface ← rethrow InterfaceError (new_Interface types);
      match Js.find (λ f, String.eqb (Abi.name f) "main")
              (Abi.fragments this_interface) with
      | Some mainFunction =>
          Ok {| address := address; provider := provider; bytes := this_bytes;
                types := Some (Abi.inputs mainFunction);
                predicateData := [];
                interface := Some this_interface |}
      | None => Throw (ArgumentError (Abi.fragments this_interface))
      end
  | None =>
      Ok {| address := address; provider := provider; bytes := this_bytes;
            types := None; predicateData := []; interface := None |}
  end.

End predicate.
End Predicate0.

(** ** [setData] of the current snapshot *)

(** [new AbiCoder().encode(types, values)]: the encoding of an argument
    vector against a list of types. *)
Class ArgumentsCoder `{AbiTypes} : Type := {
  encode_arguments :
    list JsonAbiFragmentType → list InputValue → result CoderFailure Js.Uint8Array;
}.

Module PredicateData.
Section data.
Context `{ArgumentsCoder, Identity}.

(** [setData].  The field is initialised with
    [this.isBuiltByFuelFactory ? (arg) => ... : (...args) => ...] when the
    fields of the class are initialised, which is after [super(...)] returns
    and before the constructor assigns its argument to
    [this.isBuiltByFuelFactory]: the condition reads the initial value
    [false] of that field, declared above it, so the function stored is the
    second one, which takes the arguments in order.  It encodes them against
    [this.jsonAbi], stores the result in [this.predicateData] and returns
    [this]; when the coder throws, nothing is stored. *)
Definition setData (this : Predicate.Predicate) (args : list InputValue)
  : result CoderFailure Predicate.Predicate :=
  encoded ← encode_arguments (Predicate.jsonAbi this) args;
  Ok {| Predicate.address := Predicate.address this;
        Predicate.provider := Predicate.provider this;
        Predicate.bytes := Predicate.bytes this;
        Predicate.jsonAbi := Predicate.jsonAbi this;
        Predicate.predicateData := encoded;
        Predicate.interface := Predicate.interface this;
        Predicate.isBuiltByFuelFactory := Predicate.isBuiltByFuelFactory this |}.

End data.
End PredicateData.

(** ** A small coder and chain to run the definitions on *)

Module Sample.

#[local] Instance byte_eq_dec : EqDecision Byte.byte := Byte.byte_eq_dec.

(** The types of the sample coder: 8-bit and 64-bit unsigned integers and
    256-bit values, all given as integers. *)
Inductive type : Type := u8 | u64 | b256.

(** A JSON ABI: functions with the types of their inputs, and configurable
    slots with their type and offset. *)
Record abi : Type := {
  abi_functions : list (string * list type);
  abi_configurables : list (string * (type * Z));
}.

Inductive failure : Type := value_out_of_range | not_supported.

#[local] Instance types : AbiTypes := {|
  JsonAbi := abi;
  JsonAbiFragmentType := type;
  InputValue := Z;
  CoderFailure := failure;
|}.

Definition byte_of (z : Z) : Byte.byte :=
  default Byte.x00 (Byte.of_nat (Z.to_nat (z mod 256))).

(** Big-endian bytes of [z], [width] of them. *)
Definition big_endian (width : nat) (z : Z) : Js.Uint8Array :=
  (λ i : nat, byte_of (z / 2 ^ (8 * Z.of_nat (width - 1 - i)))) <$> seq 0 width.

Definition sample_encode (t : type) (value : Z)
  : result failure Js.Uint8Array :=
  match t with
  | u8 => if bool_decide (0 ≤ value < 2 ^ 8) then Ok (big_endian 1 value)
          else Throw value_out_of_range
  | u64 => if bool_decide (0 ≤ value < 2 ^ 64) then Ok (big_endian 8 value)
           else Throw value_out_of_range
  | b256 => if bool_decide (0 ≤ value < 2 ^ 256) then Ok (big_endian 32 value)
            else Throw value_out_of_range
  end.

Definition sample_Interface (a : abi) : result failure Abi.Interface :=
  Ok {| Abi.fragments :=
          (λ f : string * list type, {| Abi.name := f.1; Abi.inputs := f.2 |})
            <$> abi_functions a;
        Abi.configurables :=
          list_to_map
            ((λ c : string * (type * Z),
                (c.1, {| Abi.fragmentType := c.2.1; Abi.offset := c.2.2 |}))
               <$> abi_configurables a);
        Abi.abi := None |}.

#[local] Instance coder : AbiCoder := {|
  encode := sample_encode;
  new_Interface := sample_Interface;
|}.

(** A chain whose root keeps its arguments, so that it tells any two of them
    apart. *)
#[local] Instance identity : Identity := {|
  B256 := Js.Uint8Array * Z;
  Address := Js.Uint8Array * Z;
  Provider := unit;
  getContractRoot := λ bytecode chainId, (bytecode, chainId);
  getContractRoot_legacy := λ bytecode, (bytecode, 0);
  Address_fromB256 := λ root, root;
  Address_toB256 := λ address, address;
|}.

(** A predicate ABI: [main(u64)] with a configurable [fee: u64] at offset 40
    and a configurable [flag: u8] at offset 1. *)
Definition predicate_abi : JsonAbi := {|
  abi_functions := [("main", [u64])];
  abi_configurables := [("fee", (u64, 40)); ("flag", (u8, 1))];
|}.

Definition predicate_interface : Abi.Interface :=
  match sample_Interface predicate_abi with
  | Ok i => i
  | Throw _ => {| Abi.fragments := []; Abi.configurables := ∅; Abi.abi := None |}
  end.

(** An ABI without a function named main. *)
Definition library_abi : JsonAbi := {|
  abi_functions := [("helper", [u8])];
  abi_configurables := [];
|}.

Definition slot (t : type) (offset : Z) : Abi.Configurable :=
  {| Abi.fragmentType := t; Abi.offset := offset |}.

Definition zeros (n : nat) : Js.Uint8Array := replicate n Byte.x00.

(** A contract with the function [transfer(to: b256, amount: u64)]. *)
Definition transfer : Abi.FunctionFragment :=
  {| Abi.name := "transfer"; Abi.inputs := [b256; u64] |}.

Definition token : Contract.Contract unit unit unit := {|
  Contract.id := ();
  Contract.provider := ();
  Contract.interface := {|
    Abi.fragments := [transfer];
    Abi.configurables := ∅;
    Abi.abi := Some {| Abi.functions :=
      [{| Abi.fn_name := "transfer";
          Abi.fn_inputs := [{| Abi.arg_name := "to"; Abi.arg_type := 0 |};
                            {| Abi.arg_name := "amount"; Abi.arg_type := 1 |}] |}] |};
  |};
  Contract.account := None;
|}.

Definition addrA : Z := 10.

End Sample.

(** ** Sample arguments and transactions *)

Module SampleCalls.
#[local] Existing Instances Sample.types Sample.coder Sample.identity.

(** The encodings of the values against the types, one after the other. *)
Fixpoint sample_encode_arguments (types : list Sample.type) (values : list Z)
  : result Sample.failure Js.Uint8Array :=
  match types, values with
  | [], [] => Ok []
  | t :: types', value :: values' =>
      encoded ← Sample.sample_encode t value;
      rest ← sample_encode_arguments types' values';
      Ok (encoded ++ rest)
  | _, _ => Throw Sample.not_supported
  end.

#[local] Instance arguments : ArgumentsCoder := {|
  encode_arguments := sample_encode_arguments;
|}.

#[local] Instance calls : CallCoder Z := {|
  encodeArguments := sample_encode_arguments;
|}.

(** An ABI with [main(u64)] and no configurable. *)
Definition plain_abi : JsonAbi := {|
  Sample.abi_functions := [("main", [Sample.u64])];
  Sample.abi_configurables := [];
|}.

(** The main function of the sample predicate ABIs. *)
Definition main_fragment : Abi.FunctionFragment :=
  {| Abi.name := "main"; Abi.inputs := [Sample.u64] |}.

(** A fragment that the ABI of [Sample.token] does not list. *)
Definition mint : Abi.FunctionFragment :=
  {| Abi.name := "mint"; Abi.inputs := [Sample.u64] |}.

End SampleCalls.

(** ** Sample transactions, with owners given as hex strings *)

Module SampleTx.
#[local] Existing Instances Sample.types Sample.coder SampleCalls.arguments.

Inductive failure : Type :=
| invalid_hexlify_value
| hex_data_is_odd_length
| unknown_transaction_type.

Definition between (lo hi a : ascii) : bool :=
  (nat_of_ascii lo <=? nat_of_ascii a)%nat && (nat_of_ascii a <=? nat_of_ascii hi)%nat.

Definition is_hex_digit (a : ascii) : bool :=
  between "0" "9" a || between "a" "f" a || between "A" "F" a.

Definition to_lower (a : ascii) : ascii :=
  if between "A" "Z" a then ascii_of_nat (nat_of_ascii a + 32) else a.

Fixpoint all_hex (s : string) : bool :=
  match s with
  | EmptyString => true
  | String a s' => is_hex_digit a && all_hex s'
  end.

Fixpoint toLowerCase (s : string) : string :=
  match s with
  | EmptyString => EmptyString
  | String a s' => String (to_lower a) (toLowerCase s')
  end.

(** [hexlify] of [@ethersproject/bytes] on a string: a hex string is [0x]
    followed by hex digits; one with an odd number of digits is refused; the
    result is the string in lower case.  Any other string is refused. *)
Definition hexlify_string (s : string) : result failure string :=
  match s with
  | String "0" (String "x" digits) =>
      if all_hex digits
      then if Nat.even (String.length digits) then Ok (toLowerCase s)
           else Throw hex_data_is_odd_length
      else Throw invalid_hexlify_value
  | _ => Throw invalid_hexlify_value
  end.

Definition hex_digit (n : nat) : ascii :=
  default "0"%char (String.get n "0123456789abcdef").

Definition hex_of_bytes (bytes : Js.Uint8Array) : string :=
  foldr (λ b rest,
           String (hex_digit (Byte.to_nat b / 16))
             (String (hex_digit (Byte.to_nat b mod 16)) rest))
    EmptyString bytes.

(** A chain whose roots and addresses are hex strings; the root spells out
    the bytecode and the chain id. *)
#[local] Instance identity : Identity := {|
  B256 := string;
  Address := string;
  Provider := unit;
  getContractRoot := λ bytecode chainId,
    String "0" (String "x" (hex_of_bytes (bytecode ++ Sample.big_endian 8 chainId)));
  getContractRoot_legacy := λ bytecode,
    String "0" (String "x" (hex_of_bytes bytecode));
  Address_fromB256 := λ root, root;
  Address_toB256 := λ address, address;
|}.

(** Requests given by their type and their coins, each coin by its owner and
    amount. *)
#[local] Instance transactions : TransactionTypes := {|
  BytesLike := string;
  CoinFields := Z;
  ContractFields := unit;
  MessageFields := unit;
  RequestFields := unit;
  TransactionRequestLike := Z * list (string * Z);
|}.

Definition coin (owner : string) (amount : Z) : Tx.TransactionRequestInput :=
  Tx.CoinInput {| Tx.owner := owner; Tx.predicate := None;
                  Tx.predicateData := None; Tx.coin_fields := amount |}.

(** [transactionRequestify] on a plain object: the types 0 (script) and 1
    (create) are known, any other type is refused. *)
Definition sample_requestify (like : Z * list (string * Z))
  : result failure Tx.TransactionRequest :=
  if bool_decide (like.1 = 0 ∨ like.1 = 1)
  then Ok {| Tx.inputs := Some ((λ c : string * Z, coin c.1 c.2) <$> like.2);
             Tx.request_fields := () |}
  else Throw unknown_transaction_type.

#[local] Instance providers : Providers := {|
  ProviderFailure := failure;
  hexlify := hexlify_string;
  transactionRequestify := sample_requestify;
|}.

(** The address of the sample predicate with [flag] set, on chain 0. *)
Definition flagged : string := "0x000100000000000000000000".

(** A predicate of that address, before and after [setData]. *)
Definition flagged_predicate (predicateData : Js.Uint8Array) : Predicate.Predicate :=
  {| Predicate.address := flagged;
     Predicate.provider := None;
     Predicate.bytes := [Byte.x00; Byte.x01; Byte.x00; Byte.x00];
     Predicate.jsonAbi := [Sample.u64];
     Predicate.predicateData := predicateData;
     Predicate.interface := Some Sample.predicate_interface;
     Predicate.isBuiltByFuelFactory := false |}.

(** A coin of that address. *)
Definition flagged_coin : Tx.CoinTransactionRequestInput :=
  {| Tx.owner := flagged; Tx.predicate := None;
     Tx.predicateData := None; Tx.coin_fields := 6 |}.

(** A script request with a coin of another owner and that coin. *)
Definition two_coins : TransactionRequestLike :=
  (0, [("0x00", 5); (flagged, 6)]).

(** A script request with a coin whose owner is no hex string. *)
Definition odd_owner : TransactionRequestLike :=
  (0, [(flagged, 6); ("predicate", 7)]).

End SampleTx.

(** * Properties *)

(** ** Typed arrays *)

Section typed_arrays.
Implicit Types target source : Js.Uint8Array.

Lemma set_in_range target source (offset : Z) :
  0 ≤ offset →
  offset + Z.of_nat (length source) ≤ Z.of_nat (length target) →
  Js.set target source offset
  = Ok (take (Z.to_nat offset) target ++ source
          ++ drop (Z.to_nat offset + length source) target).
Proof.
  intros Hlo Hhi. unfold Js.set.
  rewrite bool_decide_eq_false_2; [done | lia].
Qed.

Lemma set_out_of_range target source (offset : Z) :
  Z.of_nat (length target) < offset + Z.of_nat (length source) →
  Js.set target source offset = Throw Js.offset_is_out_of_bounds.
Proof.
  intros Hhi. unfold Js.set. rewrite bool_decide_eq_true_2; [done | lia].
Qed.

Lemma set_Ok_inv target source (offset : Z) target' :
  Js.set target source offset = Ok target' →
  0 ≤ offset
  ∧ offset + Z.of_nat (length source) ≤ Z.of_nat (length target)
  ∧ target' = take (Z.to_nat offset) target ++ source
                ++ drop (Z.to_nat offset + length source) target.
Proof.
  unfold Js.set. case_bool_decide as Hr; [done |].
  intros [= <-]. split_and!; [lia | lia | done].
Qed.

Lemma set_length target source (offset : Z) target' :
  Js.set target source offset = Ok target' → length target' = length target.
Proof.
  intros (Hlo & Hhi & ->)%set_Ok_inv.
  rewrite !length_app, length_take, length_drop. lia.
Qed.

(** Outside the window the target keeps its bytes. *)
Lemma set_lookup_outside target source (offset : Z) target' (i : nat) :
  Js.set target source offset = Ok target' →
  ¬ (offset ≤ Z.of_nat i < offset + Z.of_nat (length source)) →
  target' !! i = target !! i.
Proof.
  intros (Hlo & Hhi & ->)%set_Ok_inv Hout.
  destruct (decide (Z.of_nat i < offset)) as [Hlt | Hge].
  - rewrite lookup_app_l by (rewrite length_take; lia).
    apply lookup_take_lt. lia.
  - rewrite lookup_app_r by (rewrite length_take; lia).
    rewrite lookup_app_r by (rewrite length_take; lia).
    rewrite lookup_drop, length_take. f_equal. lia.
Qed.

(** Inside the window the target holds the source. *)
Lemma set_lookup_inside target source (offset : Z) target' (j : nat) :
  Js.set target source offset = Ok target' →
  (j < length source)%nat →
  target' !! (Z.to_nat offset + j)%nat = source !! j.
Proof.
  intros (Hlo & Hhi & ->)%set_Ok_inv Hj.
  rewrite lookup_app_r by (rewrite length_take; lia).
  rewrite length_take, lookup_app_l by lia.
  f_equal. lia.
Qed.

End typed_arrays.

(** ** Configurable constants *)

Section configurables.
Context `{AbiCoder}.
Implicit Types bytes mutatedBytes : Js.Uint8Array.
Implicit Types entries : Js.object InputValue.
Implicit Types abiInterface : Abi.Interface.

Lemma declared_nonempty abiInterface key c :
  Abi.configurables abiInterface !! key = Some c →
  size (Abi.configurables abiInterface) ≠ 0%nat.
Proof.
  intros Hc Hsize. apply map_size_empty_iff in Hsize.
  rewrite Hsize, lookup_empty in Hc. done.
Qed.

(** One entry whose name is declared, whose value the coder accepts and
    whose bytes fit: the callback returns the patched buffer. *)
Lemma setConfigurableConstant_Ok abiInterface mutatedBytes key value c encoded :
  Abi.configurables abiInterface !! key = Some c →
  encode (Abi.fragmentType c) value = Ok encoded →
  Predicate.setConfigurableConstant abiInterface mutatedBytes (key, value)
  = rethrow Predicate.range_error (Js.set mutatedBytes encoded (Abi.offset c)).
Proof.
  intros Hc Henc. unfold Predicate.setConfigurableConstant.
  rewrite Hc, Henc. done.
Qed.

Lemma setConfigurableConstant_length abiInterface mutatedBytes entry mutatedBytes' :
  Predicate.setConfigurableConstant abiInterface mutatedBytes entry = Ok mutatedBytes' →
  length mutatedBytes' = length mutatedBytes.
Proof.
  destruct entry as [key value]. unfold Predicate.setConfigurableConstant.
  destruct (Abi.configurables abiInterface !! key) as [c |];
    [| by case_bool_decide].
  destruct (encode (Abi.fragmentType c) value) as [encoded | e]; [| done].
  simpl. destruct (Js.set mutatedBytes encoded (Abi.offset c)) eqn:Hset; [| done].
  intros [= <-]. by eapply set_length.
Qed.

(** The loop never changes the length of the buffer, however it ends. *)
Lemma forEachConfigurable_length abiInterface entries mutatedBytes :
  length (Predicate.forEachConfigurable abiInterface entries mutatedBytes).1
  = length mutatedBytes.
Proof.
  revert mutatedBytes. induction entries as [| entry entries IH]; intros b; [done |].
  cbn [Predicate.forEachConfigurable]. destruct (Predicate.setConfigurableConstant abiInterface b entry) as [b' | e] eqn:Hset.
  - rewrite IH. by eapply setConfigurableConstant_length.
  - done.
Qed.

(** The loop over [pre ++ post] is the loop over [pre] followed, if that
    went through, by the loop over [post] on the buffer [pre] left. *)
Lemma forEachConfigurable_app abiInterface pre post mutatedBytes :
  Predicate.forEachConfigurable abiInterface (pre ++ post) mutatedBytes
  = match Predicate.forEachConfigurable abiInterface pre mutatedBytes with
    | (mutatedBytes', Ok _) =>
        Predicate.forEachConfigurable abiInterface post mutatedBytes'
    | stopped => stopped
    end.
Proof.
  revert mutatedBytes. induction pre as [| entry pre IH]; intros b; [done |].
  rewrite <- app_comm_cons. cbn [Predicate.forEachConfigurable].
  destruct (Predicate.setConfigurableConstant abiInterface b entry); [apply IH | done].
Qed.

(** An undeclared name stops the loop, at that entry or before. *)
Lemma forEachConfigurable_undeclared abiInterface entries mutatedBytes key :
  key ∈ Js.keys entries →
  Abi.configurables abiInterface !! key = None →
  fails (Predicate.forEachConfigurable abiInterface entries mutatedBytes).2.
Proof.
  intros Hin Hnone. revert mutatedBytes.
  induction entries as [| [k v] entries IH]; intros b.
  - by apply elem_of_nil in Hin.
  - cbn [Predicate.forEachConfigurable]. destruct (Predicate.setConfigurableConstant abiInterface b (k, v)) as [b' | e] eqn:Hset.
    + apply IH. unfold Js.keys in Hin. rewrite fmap_cons in Hin.
      apply elem_of_cons in Hin as [Hk | Hin]; [| done]. simpl in Hk. subst k.
      unfold Predicate.setConfigurableConstant in Hset. rewrite Hnone in Hset.
      by case_bool_decide.
    + by exists e.
Qed.

Lemma setConfigurableConstants_length bytes entries (abiInterface : option Abi.Interface) :
  length (Predicate.setConfigurableConstants bytes entries abiInterface).1
  = length bytes.
Proof.
  unfold Predicate.setConfigurableConstants.
  destruct abiInterface as [i |]; [| done].
  case_bool_decide; [done |].
  pose proof (forEachConfigurable_length i entries bytes) as Hlen.
  by destruct (Predicate.forEachConfigurable i entries bytes).
Qed.

(** With a descriptor that declares something, the function is its loop. *)
Lemma setConfigurableConstants_loop bytes entries abiInterface :
  size (Abi.configurables abiInterface) ≠ 0%nat →
  Predicate.setConfigurableConstants bytes entries (Some abiInterface)
  = let r := Predicate.forEachConfigurable abiInterface entries bytes in
    (r.1, rethrow Predicate.Error_setting_configurable_constants r.2).
Proof.
  intros Hsize. unfold Predicate.setConfigurableConstants.
  rewrite bool_decide_eq_false_2 by done.
  by destruct (Predicate.forEachConfigurable abiInterface entries bytes).
Qed.

(** C2. Applying a value to one declared slot whose encoded bytes fit in the
    buffer returns normally; the buffer keeps its length, every byte outside
    [offset, offset + width) is unchanged, and the bytes inside are the
    coder's encoding of the value under the slot's declared type. *)
Theorem setConfigurableConstants_single_slot
  bytes abiInterface key value c encoded :
  Abi.configurables abiInterface !! key = Some c →
  encode (Abi.fragmentType c) value = Ok encoded →
  0 ≤ Abi.offset c →
  Abi.offset c + Z.of_nat (length encoded) ≤ Z.of_nat (length bytes) →
  ∃ patched,
    Predicate.setConfigurableConstants bytes [(key, value)] (Some abiInterface)
    = (patched, Ok ())
    ∧ length patched = length bytes
    ∧ (∀ i : nat,
         ¬ (Abi.offset c ≤ Z.of_nat i < Abi.offset c + Z.of_nat (length encoded)) →
         patched !! i = bytes !! i)
    ∧ (∀ j : nat, (j < length encoded)%nat →
         patched !! (Z.to_nat (Abi.offset c) + j)%nat = encoded !! j).
Proof.
  intros Hc Henc Hlo Hhi.
  pose proof (set_in_range bytes encoded (Abi.offset c) Hlo Hhi) as Hset.
  eexists. rewrite setConfigurableConstants_loop by by eapply declared_nonempty.
  cbn [Predicate.forEachConfigurable].
  rewrite (setConfigurableConstant_Ok _ _ _ _ _ _ Hc Henc), Hset. simpl.
  split_and!.
  - done.
  - by eapply set_length.
  - intros i Hi. by eapply set_lookup_outside.
  - intros j Hj. by eapply set_lookup_inside.
Qed.

(** C5. A slot whose offset plus encoded width exceeds the length of the
    buffer: the write is refused with the range error of the typed array,
    rethrown as the error of the function; the loop stops there, with the
    buffer as the entries before it left it, and its length is the one it had. *)
Theorem setConfigurableConstants_out_of_range
  bytes abiInterface pre key value post c encoded mutatedBytes :
  Abi.configurables abiInterface !! key = Some c →
  encode (Abi.fragmentType c) value = Ok encoded →
  Predicate.forEachConfigurable abiInterface pre bytes = (mutatedBytes, Ok ()) →
  Z.of_nat (length bytes) < Abi.offset c + Z.of_nat (length encoded) →
  Predicate.setConfigurableConstants bytes (pre ++ (key, value) :: post)
    (Some abiInterface)
  = (mutatedBytes,
     Throw (Predicate.Error_setting_configurable_constants
              (Predicate.range_error Js.offset_is_out_of_bounds)))
  ∧ length mutatedBytes = length bytes.
Proof.
  intros Hc Henc Hpre Hout.
  assert (length mutatedBytes = length bytes) as Hlen.
  { pose proof (forEachConfigurable_length abiInterface pre bytes) as Hl.
    by rewrite Hpre in Hl. }
  split; [| done].
  rewrite setConfigurableConstants_loop by by eapply declared_nonempty.
  rewrite forEachConfigurable_app, Hpre.
  cbn [Predicate.forEachConfigurable].
  rewrite (setConfigurableConstant_Ok _ _ _ _ _ _ Hc Henc).
  rewrite set_out_of_range by lia. done.
Qed.

(** C4, as the code has it.  A value set with an undeclared name never goes
    through.  When the entries before that name were written without error,
    the buffer is as those entries left it, unchanged when the undeclared
    name comes first, and the error names the undeclared name, unless the
    name is one that every object inherits, for which the error is the
    TypeError of the coder. *)
Theorem setConfigurableConstants_undeclared
  bytes abiInterface entries key :
  key ∈ Js.keys entries →
  Abi.configurables abiInterface !! key = None →
  fails (Predicate.setConfigurableConstants bytes entries (Some abiInterface)).2
  ∧ (∀ pre value post mutatedBytes,
       entries = pre ++ (key, value) :: post →
       size (Abi.configurables abiInterface) ≠ 0%nat →
       Predicate.forEachConfigurable abiInterface pre bytes = (mutatedBytes, Ok ()) →
       Predicate.setConfigurableConstants bytes entries (Some abiInterface)
       = (mutatedBytes,
          Throw (Predicate.Error_setting_configurable_constants
                   (if bool_decide (key ∈ Js.Object_prototype)
                    then Predicate.fragment_type_undefined
                    else Predicate.no_configurable_constant_named key))))
  ∧ (∀ value post,
       entries = (key, value) :: post →
       (Predicate.setConfigurableConstants bytes entries (Some abiInterface)).1
       = bytes).
Proof.
  intros Hin Hnone. split_and!.
  - unfold Predicate.setConfigurableConstants. case_bool_decide.
    + by eexists.
    + destruct (forEachConfigurable_undeclared abiInterface entries bytes key Hin Hnone)
        as [e He].
      destruct (Predicate.forEachConfigurable abiInterface entries bytes) as [b r].
      simpl in He. subst r. by eexists.
  - intros pre value post b -> Hsize Hpre.
    rewrite setConfigurableConstants_loop by done.
    rewrite forEachConfigurable_app, Hpre. simpl. rewrite Hnone.
    by case_bool_decide.
  - intros value post ->. unfold Predicate.setConfigurableConstants.
    case_bool_decide; [done |]. simpl. rewrite Hnone. by case_bool_decide.
Qed.

End configurables.

(** ** Construction of a predicate *)

Section construction.
Context `{AbiCoder, Identity}.
Implicit Types bytes : Js.Uint8Array.
Implicit Types jsonAbi : option JsonAbi.

(** A run of [processPredicateData] that returns fixes what it returns for
    the same ABI when there are no values to apply, and its bytes are those
    [setConfigurableConstants] left, if it was called. *)
Lemma processPredicateData_Ok_inv bytes jsonAbi configurableConstants
  predicateBytes predicateTypes predicateInterface :
  Predicate.processPredicateData bytes jsonAbi configurableConstants
  = Ok (predicateBytes, predicateTypes, predicateInterface) →
  (∀ bytes' configurableConstants',
     configurableConstants' = None ∨ configurableConstants' = Some [] →
     Predicate.processPredicateData bytes' jsonAbi configurableConstants'
     = Ok (arrayify bytes', predicateTypes, predicateInterface))
  ∧ match configurableConstants with
    | Some (entry :: entries) =>
        Predicate.setConfigurableConstants (arrayify bytes) (entry :: entries)
          predicateInterface
        = (predicateBytes, Ok ())
    | _ => predicateBytes = arrayify bytes
    end.
Proof.
  unfold Predicate.processPredicateData.
  destruct jsonAbi as [abi0 |].
  - destruct (new_Interface abi0) as [i | e]; [| done]. simpl.
    destruct (Js.find _ (Abi.fragments i)) as [mainFunction |]; [| done]. simpl.
    destruct configurableConstants as [[| entry entries] |]; simpl.
    + intros [= <- <- <-]. split; [| done]. by intros b' cc' [-> | ->].
    + destruct (Predicate.setConfigurableConstants (arrayify bytes)
                  (entry :: entries) (Some i)) as [b [[] | e]] eqn:Hset; simpl; [| done].
      intros [= <- <- <-]. split; [| done]. by intros b' cc' [-> | ->].
    + intros [= <- <- <-]. split; [| done]. by intros b' cc' [-> | ->].
  - simpl. destruct configurableConstants as [[| entry entries] |]; simpl.
    + intros [= <- <- <-]. split; [| done]. by intros b' cc' [-> | ->].
    + done.
    + intros [= <- <- <-]. split; [| done]. by intros b' cc' [-> | ->].
Qed.

(** C8. Once a bytecode has been patched, patching the result again with an
    empty value set (or with none) under the same ABI returns the same
    bytecode, types and interface. *)
Theorem processPredicateData_empty_is_noop
  bytes jsonAbi configurableConstants patched predicateTypes predicateInterface :
  Predicate.processPredicateData bytes jsonAbi configurableConstants
  = Ok (patched, predicateTypes, predicateInterface) →
  Predicate.processPredicateData patched jsonAbi (Some [])
  = Ok (patched, predicateTypes, predicateInterface)
  ∧ Predicate.processPredicateData patched jsonAbi None
    = Ok (patched, predicateTypes, predicateInterface).
Proof.
  intros [Hagain _]%processPredicateData_Ok_inv.
  split; apply Hagain; auto.
Qed.

Lemma constructor_Ok_inv bytes chainId jsonAbi provider configurableConstants
  isBuiltByFuelFactory this :
  Predicate.constructor bytes chainId jsonAbi provider configurableConstants
    isBuiltByFuelFactory = Ok this →
  ∃ predicateTypes,
    Predicate.processPredicateData bytes jsonAbi configurableConstants
    = Ok (Predicate.bytes this, predicateTypes, Predicate.interface this)
    ∧ Predicate.address this
      = Address_fromB256 (getContractRoot (Predicate.bytes this) chainId).
Proof.
  unfold Predicate.constructor.
  destruct (Predicate.processPredicateData bytes jsonAbi configurableConstants)
    as [[[b t] i] | e]; [| done].
  simpl. intros [= <-]. by exists t.
Qed.

(** A list of fragments without a function named main. *)
Lemma find_main_None (fragments : list Abi.FunctionFragment) :
  (∀ f, f ∈ fragments → Abi.name f ≠ "main") →
  Js.find (λ f, String.eqb (Abi.name f) "main") fragments = None.
Proof.
  intros Hno. unfold Js.find.
  destruct (list_find _ fragments) as [[i f] |] eqn:Hfind; [| done].
  apply list_find_Some in Hfind as (Hi & Hmain & _).
  apply String.eqb_eq in Hmain. apply list_elem_of_lookup_2 in Hi.
  by destruct (Hno f Hi).
Qed.

(** C10. With a JSON ABI whose fragments have no function named main, no
    predicate is constructed, in either snapshot: when the interface is built
    the constructor throws the argument error carrying the fragments, and
    otherwise the failure of [new Interface]. *)
Theorem constructor_without_main_fails (abi0 : JsonAbi) :
  (∀ abiInterface, new_Interface abi0 = Ok abiInterface →
     ∀ f, f ∈ Abi.fragments abiInterface → Abi.name f ≠ "main") →
  (∀ bytes chainId provider configurableConstants flag,
     fails (Predicate.constructor bytes chainId (Some abi0) provider
              configurableConstants flag)
     ∧ ∀ abiInterface, new_Interface abi0 = Ok abiInterface →
         Predicate.constructor bytes chainId (Some abi0) provider
           configurableConstants flag
         = Throw (Predicate.ArgumentError (Abi.fragments abiInterface)))
  ∧ (∀ bytes provider,
       fails (Predicate0.constructor bytes (Some abi0) provider)
       ∧ ∀ abiInterface, new_Interface abi0 = Ok abiInterface →
           Predicate0.constructor bytes (Some abi0) provider
           = Throw (Predicate0.ArgumentError (Abi.fragments abiInterface))).
Proof.
  intros Hno. split.
  - intros bytes chainId provider cc flag.
    unfold Predicate.constructor, Predicate.processPredicateData.
    destruct (new_Interface abi0) as [i | e] eqn:Hnew; simpl.
    + rewrite (find_main_None _ (Hno i eq_refl)). simpl.
      split; [by eexists |]. by intros ? [= <-].
    + split; [by eexists | done].
  - intros bytes provider. unfold Predicate0.constructor.
    destruct (new_Interface abi0) as [i | e] eqn:Hnew; simpl.
    + rewrite (find_main_None _ (Hno i eq_refl)).
      split; [by eexists |]. by intros ? [= <-].
    + split; [by eexists | done].
Qed.

End construction.

(** ** Predicate data on transaction inputs *)

Section transactions.
Context `{AbiCoder, Identity, !TransactionTypes, !Providers}.

Implicit Types this : Predicate.Predicate.
Implicit Types inputs : list Tx.TransactionRequestInput.

Lemma populateInput_type this input input' :
  Predicate.populateInput this input = Ok input' →
  Tx.type input' = Tx.type input.
Proof.
  destruct input as [c | c | m]; simpl; [| by intros [= <-] ..].
  destruct (hexlify (Tx.owner c)) as [owner | e]; simpl; [| done].
  case_bool_decide; by intros [= <-].
Qed.

(** The callback returns for every input but a coin whose owner [hexlify]
    refuses. *)
Lemma populateInput_succeeds this input :
  succeeds (Predicate.populateInput this input)
  ↔ ∀ c, input = Tx.CoinInput c → succeeds (hexlify (Tx.owner c)).
Proof.
  destruct input as [c | c | m]; simpl.
  - destruct (hexlify (Tx.owner c)) as [owner | e] eqn:Howner; simpl.
    + split; [intros _ c' [= <-]; rewrite Howner; by eexists |].
      intros _. case_bool_decide; by eexists.
    + split; [by intros [? ?] |]. intros Hc.
      destruct (Hc c eq_refl) as [owner Howner']. congruence.
  - split; [by intros _ c' ? | by eexists].
  - split; [by intros _ c' ? | by eexists].
Qed.

(** The loop goes through exactly when [hexlify] accepts the owner of every
    coin among the inputs. *)
Lemma forEachInput_succeeds this inputs :
  (Predicate.forEachInput this inputs).2 = Ok ()
  ↔ ∀ c, Tx.CoinInput c ∈ inputs → succeeds (hexlify (Tx.owner c)).
Proof.
  induction inputs as [| input inputs IH]; simpl.
  - split; [| done]. intros _ c Hc. by apply elem_of_nil in Hc.
  - pose proof (populateInput_succeeds this input) as Hinput.
    destruct (Predicate.populateInput this input) as [input' | e].
    + destruct (Predicate.forEachInput this inputs) as [rest outcome].
      simpl in *. rewrite IH. split.
      * intros Hrest c [Heq | Hc]%elem_of_cons; [| by apply Hrest].
        apply Hinput; [by eexists | done].
      * intros Hall c Hc. apply Hall. by right.
    + simpl. split; [done |]. intros Hall.
      destruct Hinput as [_ [? ?]]; [| done].
      intros c ->. apply Hall. by left.
Qed.

(** What a loop that went through has done to each input. *)
Lemma forEachInput_frame this inputs inputs' :
  Predicate.forEachInput this inputs = (inputs', Ok ()) →
  Forall2 (λ input input',
     Tx.type input' = Tx.type input
     ∧ (∀ c, input = Tx.CoinInput c →
          hexlify (Tx.owner c) = Ok (Address_toB256 (Predicate.address this)) →
          ∃ c', input' = Tx.CoinInput c'
            ∧ Tx.predicate c' = Some (Predicate.bytes this)
            ∧ Tx.predicateData c' = Some (Predicate.predicateData this)
            ∧ Tx.owner c' = Tx.owner c
            ∧ Tx.coin_fields c' = Tx.coin_fields c)
     ∧ ((∀ c, input = Tx.CoinInput c →
           hexlify (Tx.owner c) ≠ Ok (Address_toB256 (Predicate.address this))) →
        input' = input))
    inputs inputs'.
Proof.
  revert inputs'. induction inputs as [| input inputs IH]; intros inputs'; simpl.
  - intros [= <-]. constructor.
  - destruct (Predicate.populateInput this input) as [input1 | e] eqn:Hinput;
      [| done].
    destruct (Predicate.forEachInput this inputs) as [rest outcome].
    intros [= <- ->]. constructor; [| by apply IH].
    split_and!.
    + by eapply populateInput_type.
    + intros c -> Howner. simpl in Hinput. rewrite Howner in Hinput.
      simpl in Hinput. rewrite bool_decide_eq_true_2 in Hinput by done.
      injection Hinput as <-. by eexists.
    + intros Hother. destruct input as [c | c | m]; simpl in Hinput;
        [| by injection Hinput ..].
      destruct (hexlify (Tx.owner c)) as [owner | e] eqn:Howner; [| done].
      simpl in Hinput. rewrite bool_decide_eq_false_2 in Hinput.
      * by injection Hinput.
      * intros ->. by apply (Hother c).
Qed.

(** C9, as the code has it.  The method returns exactly when
    [transactionRequestify] returns a request and [hexlify] accepts the owner
    of every coin input of it.  The request it then returns has the fields of
    that request, and as many inputs, of the same types in the same order.
    A coin input whose owner is the address of the predicate comes back with
    the bytes and the data of the predicate and its other fields as they
    were; every other input comes back as it was. *)
Theorem populateTransactionPredicateData_frame
  this (transactionRequestLike : TransactionRequestLike) :
  (succeeds (Predicate.populateTransactionPredicateData this transactionRequestLike)
   ↔ ∃ request,
       transactionRequestify transactionRequestLike = Ok request
       ∧ ∀ inputs c, Tx.inputs request = Some inputs →
           Tx.CoinInput c ∈ inputs → succeeds (hexlify (Tx.owner c)))
  ∧ ∀ request',
      Predicate.populateTransactionPredicateData this transactionRequestLike
      = Ok request' →
      ∃ request,
        transactionRequestify transactionRequestLike = Ok request
        ∧ Tx.request_fields request' = Tx.request_fields request
        ∧ option_Forall2
            (Forall2 (λ input input',
               Tx.type input' = Tx.type input
               ∧ (∀ c, input = Tx.CoinInput c →
                    hexlify (Tx.owner c)
                    = Ok (Address_toB256 (Predicate.address this)) →
                    ∃ c', input' = Tx.CoinInput c'
                      ∧ Tx.predicate c' = Some (Predicate.bytes this)
                      ∧ Tx.predicateData c' = Some (Predicate.predicateData this)
                      ∧ Tx.owner c' = Tx.owner c
                      ∧ Tx.coin_fields c' = Tx.coin_fields c)
               ∧ ((∀ c, input = Tx.CoinInput c →
                     hexlify (Tx.owner c)
                     ≠ Ok (Address_toB256 (Predicate.address this))) →
                  input' = input)))
            (Tx.inputs request) (Tx.inputs request').
Proof.
  unfold Predicate.populateTransactionPredicateData.
  destruct (transactionRequestify transactionRequestLike) as [request | e];
    simpl.
  2: { split; [| done]. split; [by intros [? ?] | by intros (? & ? & _)]. }
  destruct (Tx.inputs request) as [inputs |] eqn:Hinputs.
  - pose proof (forEachInput_succeeds this inputs) as Hok.
    pose proof (forEachInput_frame this inputs) as Hframe.
    destruct (Predicate.forEachInput this inputs) as [inputs' [[] | e]];
      simpl in *.
    + split.
      * split; [| by eexists]. intros _. exists request. split; [done |].
        intros inputs0 c Hsome. rewrite Hinputs in Hsome.
        injection Hsome as <-. by apply Hok.
      * intros request' [= <-]. exists request. split; [done |].
        split; [done |]. rewrite Hinputs. simpl. constructor. by apply Hframe.
    + split; [| done]. split; [by intros [? ?] |].
      intros (request0 & [= <-] & Hall).
      destruct Hok as [_ Hok]. exfalso.
      assert (∀ c, Tx.CoinInput c ∈ inputs → succeeds (hexlify (Tx.owner c)))
        as Hcoins by (intros c; by apply Hall).
      by apply Hok in Hcoins.
  - split.
    + split; [| by eexists]. intros _. exists request. split; [done |].
      intros inputs c. by rewrite Hinputs.
    + intros request' [= <-]. exists request. split; [done |].
      split; [done |]. rewrite Hinputs. constructor.
Qed.

End transactions.

(** ** Sorting the entries of an object by declared position *)

Section indexOf.
Implicit Types names : list string.

Lemma indexOf_lookup names (i : nat) x :
  NoDup names → names !! i = Some x → Js.indexOf names x = Z.of_nat i.
Proof.
  intros Hnd Hi. unfold Js.indexOf.
  destruct (list_find (λ y, y = x) names) as [[j y] |] eqn:Hfind.
  - apply list_find_Some in Hfind as (Hj & -> & _).
    by rewrite (NoDup_lookup _ _ _ _ Hnd Hj Hi).
  - apply list_find_None in Hfind. rewrite Forall_forall in Hfind.
    destruct (Hfind x); [by eapply list_elem_of_lookup_2 | done].
Qed.

Lemma indexOf_absent names x : x ∉ names → Js.indexOf names x = -1.
Proof.
  intros Hx. unfold Js.indexOf.
  destruct (list_find (λ y, y = x) names) as [[j y] |] eqn:Hfind; [| done].
  apply list_find_Some in Hfind as (Hj & -> & _).
  destruct Hx. by eapply list_elem_of_lookup_2.
Qed.

Lemma indexOf_present names x : x ∈ names → 0 ≤ Js.indexOf names x.
Proof.
  intros Hx. unfold Js.indexOf.
  destruct (list_find (λ y, y = x) names) as [[j y] |] eqn:Hfind; [lia |].
  apply list_find_None in Hfind. rewrite Forall_forall in Hfind.
  by destruct (Hfind x).
Qed.

Lemma indexOf_ge names x : -1 ≤ Js.indexOf names x.
Proof.
  unfold Js.indexOf. destruct (list_find _ names) as [[j y] |]; lia.
Qed.

(** Along a list without repetition the index grows. *)
Lemma indexOf_increasing names :
  NoDup names →
  StronglySorted (λ p q, Js.indexOf names p < Js.indexOf names q) names.
Proof.
  intros Hnd.
  assert (∀ pre ps, names = pre ++ ps →
            StronglySorted (λ p q, Js.indexOf names p < Js.indexOf names q) ps)
    as Hsuffix; [| by apply (Hsuffix [])].
  intros pre ps. revert pre. induction ps as [| p ps IH]; intros pre Hnames.
  - constructor.
  - constructor.
    + apply (IH (pre ++ [p])). by rewrite <- app_assoc.
    + apply Forall_forall. intros q Hq.
      apply list_elem_of_lookup in Hq as [j Hj].
      rewrite (indexOf_lookup names (length pre) p Hnd)
        by (subst names; by rewrite list_lookup_middle).
      rewrite (indexOf_lookup names (length pre + S j) q Hnd); [lia |].
      subst names. rewrite lookup_app_r by lia.
      replace (length pre + S j - length pre)%nat with (S j) by lia. done.
Qed.

End indexOf.

Section sorting.
Context {V : Type}.
Implicit Types names ps : list string.
Implicit Types obj : Js.object V.
Implicit Types e : string * V.

(** The two parts of the sorted entries: the entries whose key is not a
    declared name, as they come, and the entries of the declared names that
    have one, in declared order. *)
Local Abbreviation undeclared names obj := (filter (λ e : string * V, e.1 ∉ names) obj).
Local Abbreviation declared ps obj :=
  (omap (λ p : string, pair p <$> Js.get obj p) ps).
Local Abbreviation byIndex names :=
  (@Contract.compareEntries V (Some names)).

Lemma get_cons e obj key :
  Js.get (e :: obj) key = if decide (e.1 = key) then Some e.2 else Js.get obj key.
Proof.
  unfold Js.get. cbn [list_find]. case_decide; [done |].
  by destruct (list_find _ obj) as [[i y] |].
Qed.

Lemma get_absent obj key : key ∉ Js.keys obj → Js.get obj key = None.
Proof.
  intros Hkey. unfold Js.get.
  destruct (list_find (λ e, e.1 = key) obj) as [[i y] |] eqn:Hfind; [| done].
  apply list_find_Some in Hfind as (Hi & <- & _). destruct Hkey.
  apply list_elem_of_fmap_2. by eapply list_elem_of_lookup_2.
Qed.

Lemma get_present obj key : key ∈ Js.keys obj → is_Some (Js.get obj key).
Proof.
  intros ([k v] & -> & Hin)%list_elem_of_fmap_1. unfold Js.get.
  destruct (list_find _ obj) as [r |] eqn:Hfind; [by eexists |].
  apply list_find_None in Hfind. rewrite Forall_forall in Hfind.
  by destruct (Hfind (k, v) Hin).
Qed.

Lemma declared_keys ps obj e : e ∈ declared ps obj → e.1 ∈ ps.
Proof.
  intros (p & Hp & He)%list_elem_of_omap.
  destruct (Js.get obj p); simplify_eq/=. done.
Qed.

(** An entry with a new key does not change what the other names select. *)
Lemma declared_cons_other ps obj e :
  e.1 ∉ ps → declared ps (e :: obj) = declared ps obj.
Proof.
  intros He. apply list_omap_ext, Forall2_same_length_lookup_2; [done |].
  intros i p q Hp Hq. simplify_eq. rewrite get_cons.
  case_decide; [| done]. subst p. destruct He. by eapply list_elem_of_lookup_2.
Qed.

(** An entry that belongs before everything in the array goes in front. *)
Lemma sort_insert_front names e (l : list (string * V)) :
  Forall (λ y, Js.indexOf names e.1 ≤ Js.indexOf names y.1) l →
  Js.sort_insert (byIndex names) e l = Ok (e :: l).
Proof.
  destruct l as [| y l]; [done |]. intros [Hy _]%Forall_cons. simpl.
  case_match eqn:Hle; [done |]. apply Z.leb_gt in Hle. lia.
Qed.

(** An entry passes over what belongs strictly before it. *)
Lemma sort_insert_skip names e (pre l l' : list (string * V)) :
  Forall (λ y, Js.indexOf names y.1 < Js.indexOf names e.1) pre →
  Js.sort_insert (byIndex names) e l = Ok l' →
  Js.sort_insert (byIndex names) e (pre ++ l) = Ok (pre ++ l').
Proof.
  intros Hpre Hl. induction Hpre as [| y pre Hy _ IH]; [done |]. simpl.
  case_match eqn:Hle; [apply Z.leb_le in Hle; lia |]. by rewrite IH.
Qed.

(** Inserting the entry of a declared name among the declared entries gives
    the declared entries of the larger object. *)
Lemma sort_insert_declared names ps obj e :
  StronglySorted (λ p q, Js.indexOf names p < Js.indexOf names q) ps →
  e.1 ∈ ps → e.1 ∉ Js.keys obj →
  Js.sort_insert (byIndex names) e (declared ps obj)
  = Ok (declared ps (e :: obj)).
Proof.
  intros Hsorted Hin Hnew. induction Hsorted as [| p ps Hsorted IH Hp].
  - by apply elem_of_nil in Hin.
  - rewrite Forall_forall in Hp.
    cbn [omap list_omap]. rewrite get_cons.
    destruct (decide (e.1 = p)) as [<- | Hne].
    + rewrite (get_absent obj e.1 Hnew). cbn [fmap option_fmap option_map].
      rewrite declared_cons_other.
      2: { intros He. apply Hp in He. lia. }
      destruct e as [k v]. apply sort_insert_front, Forall_forall.
      intros y Hy%declared_keys. apply Hp in Hy. simpl in *. lia.
    + apply elem_of_cons in Hin as [? | Hin]; [done |].
      specialize (IH Hin).
      destruct (Js.get obj p) as [v |]; cbn [fmap option_fmap option_map]; [| done].
      cbn [Js.sort_insert Contract.compareEntries mbind result_bind fst].
      apply Hp in Hin.
      case_match eqn:Hle; [apply Z.leb_le in Hle; lia |]. by rewrite IH.
Qed.

(** The sort of the entries of an object against a list of declared names:
    the entries with an undeclared key first, in the order of the object,
    then those of the declared names, in declared order. *)
Lemma sort_entries names obj :
  NoDup names → Js.object_wf obj →
  Js.sort (byIndex names) obj = Ok (undeclared names obj ++ declared names obj).
Proof.
  intros Hnames Hwf. induction obj as [| e obj IH]; simpl.
  - clear. by induction names.
  - apply NoDup_cons in Hwf as [Hnew Hwf]. rewrite (IH Hwf). simpl.
    destruct (decide (e.1 ∈ names)) as [Hin | Hout].
    + rewrite filter_cons_False by naive_solver.
      apply sort_insert_skip.
      * apply list.Forall_forall. intros y [Hy _]%list_elem_of_filter.
        rewrite (indexOf_absent names y.1 Hy).
        pose proof (indexOf_present names e.1 Hin). lia.
      * by apply sort_insert_declared; [apply indexOf_increasing | |].
    + rewrite filter_cons_True by done.
      rewrite (declared_cons_other names obj e Hout).
      apply (sort_insert_front names e), list.Forall_forall. intros y _.
      rewrite (indexOf_absent names e.1 Hout). apply indexOf_ge.
Qed.

(** The values of the declared entries are the values the names select. *)
Lemma declared_values ps obj : (declared ps obj).*2 = omap (Js.get obj) ps.
Proof.
  induction ps as [| p ps IH]; [done |]. cbn [omap list_omap].
  destruct (Js.get obj p) as [v |]; [| exact IH].
  change (((p, v) :: declared ps obj).*2 = v :: omap (Js.get obj) ps).
  by rewrite fmap_cons, IH.
Qed.

(** Whatever the comparator, a sort that returns has permuted its array. *)
Lemma sort_insert_Permutation {E} (compare : string * V → string * V → result E Z)
  e (l l' : list (string * V)) :
  Js.sort_insert compare e l = Ok l' → l' ≡ₚ e :: l.
Proof.
  revert l'. induction l as [| y l IH]; intros l'; simpl.
  - by intros [= <-].
  - destruct (compare e y) as [c |]; [| done]. simpl.
    destruct (c <=? 0); [by intros [= <-] |].
    destruct (Js.sort_insert compare e l) as [l'' |]; [| done]. simpl.
    intros [= <-]. rewrite (IH l'' eq_refl). apply Permutation_swap.
Qed.

Lemma sort_Permutation {E} (compare : string * V → string * V → result E Z)
  (l l' : list (string * V)) :
  Js.sort compare l = Ok l' → l' ≡ₚ l.
Proof.
  revert l'. induction l as [| e l IH]; intros l'; simpl.
  - by intros [= <-].
  - destruct (Js.sort compare l) as [sorted |]; [| done]. simpl.
    intros Hins%sort_insert_Permutation. by rewrite Hins, (IH sorted eq_refl).
Qed.

(** A comparator that never throws lets the sort return. *)
Lemma sort_total {E} (compare : string * V → string * V → result E Z)
  (l : list (string * V)) :
  (∀ a b, succeeds (compare a b)) → succeeds (Js.sort compare l).
Proof.
  intros Htotal.
  assert (∀ e l, succeeds (Js.sort_insert compare e l)) as Hins.
  { intros e l0. induction l0 as [| y l0 [l' IH]]; simpl; [by eexists |].
    destruct (Htotal e y) as [c ->]. simpl.
    destruct (c <=? 0); [by eexists |]. rewrite IH. by eexists. }
  induction l as [| e l [sorted IH]]; simpl; [by eexists |].
  rewrite IH. apply Hins.
Qed.

End sorting.

Section objects.
Context {V : Type}.
Implicit Types obj : Js.object V.

(** In a well-formed object a key has the value of its one entry. *)
Lemma get_Some obj key v :
  Js.object_wf obj → Js.get obj key = Some v ↔ (key, v) ∈ obj.
Proof.
  intros Hwf. induction obj as [| [k w] obj IH].
  - split; [done | by intros ?%elem_of_nil].
  - apply NoDup_cons in Hwf as [Hnew Hwf]. rewrite get_cons, elem_of_cons. simpl.
    case_decide as Hk.
    + subst k. split; [by intros [= ->]; left |].
      intros [[= ->] | Hin]; [done |].
      destruct Hnew. by apply (list_elem_of_fmap_2 fst) in Hin.
    + rewrite (IH Hwf). split; [by right |]. by intros [[= -> ->] | Hin].
Qed.

(** Reading a key does not depend on the order of the entries. *)
Lemma get_Permutation obj obj' key :
  Js.object_wf obj → obj' ≡ₚ obj → Js.get obj' key = Js.get obj key.
Proof.
  intros Hwf Hperm.
  assert (Js.object_wf obj') as Hwf'.
  { unfold Js.object_wf, Js.keys in *. by rewrite Hperm. }
  apply option_eq. intros v. rewrite !get_Some by done. by rewrite Hperm.
Qed.

Lemma undeclared_nil (names : list string) obj :
  (∀ key, key ∈ Js.keys obj → key ∈ names) →
  filter (λ e : string * V, e.1 ∉ names) obj = [].
Proof.
  intros Hall. induction obj as [| e obj IH]; [done |].
  rewrite filter_cons_False.
  - apply IH. intros key Hkey. apply Hall. unfold Js.keys. rewrite fmap_cons.
    by right.
  - intros He. apply He, Hall. unfold Js.keys. rewrite fmap_cons. by left.
Qed.

Lemma omap_get_covering (names : list string) obj :
  (∀ key, key ∈ names → key ∈ Js.keys obj) →
  Forall2 (λ p v, Js.get obj p = Some v) names (omap (Js.get obj) names).
Proof.
  intros Hall. induction names as [| p names IH]; [constructor |].
  cbn [omap list_omap].
  destruct (get_present obj p) as [v Hv]; [apply Hall; by left |].
  rewrite Hv. constructor; [done |]. apply IH. intros key Hkey. apply Hall.
  by right.
Qed.

End objects.

(** ** Resolution of the arguments of a call *)

Section resolution.
Context `{AbiTypes}.
Context {Address Provider Account V : Type}.
Implicit Types this : Contract.Contract Address Provider Account.
Implicit Types func : Abi.FunctionFragment.
Implicit Types obj : Js.object V.

(** What [_mapObjIntoArgsArray] returns for a function of the ABI: the values
    of the undeclared keys in the order of the object, then the values the
    declared names select, in declared order. *)
Lemma mapObjIntoArgsArray_sorted this func names obj :
  Contract.orderedArgNames this func = Some names →
  NoDup names → Js.object_wf obj →
  Contract._mapObjIntoArgsArray this func (Some obj)
  = Ok ((filter (λ e : string * V, e.1 ∉ names) obj).*2
          ++ omap (Js.get obj) names).
Proof.
  intros Hnames Hnd Hwf. unfold Contract._mapObjIntoArgsArray.
  rewrite Hnames, (sort_entries names obj Hnd Hwf). simpl.
  by rewrite fmap_app, declared_values.
Qed.

(** C1, as the code has it.  For a function of the ABI whose declared names
    are pairwise different and an object whose keys are exactly those names,
    the resolved vector holds, for each declared name in declared order, the
    value the object has for it; an object with the same entries in another
    order resolves to the same vector. *)
Theorem mapObjIntoArgsArray_declared_order this func names obj obj' :
  Contract.orderedArgNames this func = Some names →
  NoDup names → Js.object_wf obj →
  (∀ key, key ∈ Js.keys obj ↔ key ∈ names) →
  obj' ≡ₚ obj →
  ∃ values,
    Contract._mapObjIntoArgsArray this func (Some obj) = Ok values
    ∧ Contract._mapObjIntoArgsArray this func (Some obj') = Ok values
    ∧ Forall2 (λ p v, Js.get obj p = Some v) names values.
Proof.
  intros Hnames Hnd Hwf Hkeys Hperm.
  assert (Js.object_wf obj') as Hwf'.
  { unfold Js.object_wf, Js.keys in *. by rewrite Hperm. }
  assert (∀ key, key ∈ Js.keys obj' → key ∈ names) as Hkeys'.
  { intros key. unfold Js.keys. rewrite Hperm. apply Hkeys. }
  exists (omap (Js.get obj) names). split_and!.
  - rewrite (mapObjIntoArgsArray_sorted this func names obj) by done.
    rewrite undeclared_nil; [done |]. intros key. apply Hkeys.
  - rewrite (mapObjIntoArgsArray_sorted this func names obj') by done.
    rewrite undeclared_nil by done. simpl. f_equal.
    apply list_omap_ext, Forall2_same_length_lookup_2; [done |].
    intros i p q Hp Hq. simplify_eq. by apply get_Permutation.
  - apply omap_get_covering. intros key. apply Hkeys.
Qed.

(** C6.  An array of arguments goes to the invocation scope as it is.  When
    its length is that of the parameter list of the fragment, the scope holds
    the array unchanged, with the call data the coder makes of it, and only a
    failure of the coder can stop the call; when its length differs, the call
    fails with the arity mismatch. *)
Theorem buildFunction_array_arity `{!CallCoder V} this func (a : list V) :
  (length a = length (Abi.inputs func) →
   (∀ data, encodeArguments (Abi.inputs func) a = Ok data →
      Contract.buildFunction this func (Contract.ArgsArray a)
      = Ok {| Contract.program := this; Contract.func := func;
              Contract.args := a; Contract.callData := data |})
   ∧ (∀ e, encodeArguments (Abi.inputs func) a = Throw e →
        Contract.buildFunction this func (Contract.ArgsArray a)
        = Throw (Contract.codec_error e)))
  ∧ (length a ≠ length (Abi.inputs func) →
     Contract.buildFunction this func (Contract.ArgsArray a)
     = Throw Contract.ArityMismatch).
Proof.
  unfold Contract.buildFunction, Contract.new_FunctionInvocationScope,
    Contract.resolveSequence.
  split.
  - intros Hlen. rewrite bool_decide_eq_true_2 by done. simpl.
    split; by intros ? ->.
  - intros Hlen. by rewrite bool_decide_eq_false_2.
Qed.

(** C7, as the code has it.  For a function of the ABI the resolution of an
    object returns: the vector has one value for each entry of the object
    and no other, and, the declared names being pairwise different, it lists
    the values of the keys that are not declared names first, in the order
    of the object, then the values of the declared names that are keys, in
    declared order.  A declared name that is no key adds nothing. *)
Theorem mapObjIntoArgsArray_no_validation this func names obj :
  Contract.orderedArgNames this func = Some names →
  ∃ values,
    Contract._mapObjIntoArgsArray this func (Some obj) = Ok values
    ∧ values ≡ₚ obj.*2
    ∧ (NoDup names → Js.object_wf obj →
       values = (filter (λ e : string * V, e.1 ∉ names) obj).*2
                  ++ omap (Js.get obj) names).
Proof.
  intros Hnames.
  destruct (sort_total (@Contract.compareEntries V (Some names)) obj)
    as [sorted Hsorted]; [by eexists |].
  exists (sorted.*2). split_and!.
  - unfold Contract._mapObjIntoArgsArray. by rewrite Hnames, Hsorted.
  - by rewrite (sort_Permutation _ _ _ Hsorted).
  - intros Hnd Hwf.
    pose proof (mapObjIntoArgsArray_sorted this func names obj Hnames Hnd Hwf) as Hres.
    unfold Contract._mapObjIntoArgsArray in Hres.
    rewrite Hnames, Hsorted in Hres. simpl in Hres. by injection Hres.
Qed.

End resolution.

(** * The properties at work *)

Section samples.
Import Sample.
#[local] Existing Instances Sample.types Sample.coder Sample.identity
  SampleCalls.calls.

Local Abbreviation main_error := (@Predicate.Error_setting_configurable_constants Sample.types).

(** The scenario of the specification: a bytecode of 64 bytes and the slot
    [fee] at offset 40, eight bytes wide, set to 100. *)
Lemma setConfigurableConstants_single_slot_witness :
  ∃ patched,
    Predicate.setConfigurableConstants (zeros 64) [("fee", 100)]
      (Some predicate_interface) = (patched, Ok ())
    ∧ length patched = length (zeros 64)
    ∧ (∀ i : nat, ¬ (40 ≤ Z.of_nat i < 40 + 8) → patched !! i = zeros 64 !! i)
    ∧ (∀ j : nat, (j < 8)%nat → patched !! (40 + j)%nat = big_endian 8 100 !! j).
Proof.
  apply (setConfigurableConstants_single_slot (zeros 64) predicate_interface
           "fee" 100 (slot u64 40)
           (big_endian 8 100)).
  - vm_compute. reflexivity.
  - vm_compute. reflexivity.
  - simpl. lia.
  - vm_compute. discriminate.
Defined.

(** The slot [fee] does not fit in 44 bytes: the entry before it is written,
    the write of [fee] is refused. *)
Lemma setConfigurableConstants_out_of_range_witness :
  Predicate.setConfigurableConstants (zeros 44) [("flag", 1); ("fee", 100)]
    (Some predicate_interface)
  = (<[1%nat := Byte.x01]> (zeros 44),
     Throw (main_error (Predicate.range_error Js.offset_is_out_of_bounds)))
  ∧ length (<[1%nat := Byte.x01]> (zeros 44)) = length (zeros 44).
Proof.
  apply (setConfigurableConstants_out_of_range (zeros 44) predicate_interface
           [("flag", 1)] "fee" 100 [] (slot u64 40) (big_endian 8 100)).
  - vm_compute. reflexivity.
  - vm_compute. reflexivity.
  - vm_compute. reflexivity.
  - vm_compute. reflexivity.
Defined.

(** A value set with only an undeclared name: the error names it and the
    buffer is untouched. *)
Lemma setConfigurableConstants_undeclared_witness :
  fails (Predicate.setConfigurableConstants (zeros 4) [("tax", 5)]
           (Some predicate_interface)).2
  ∧ Predicate.setConfigurableConstants (zeros 4) [("tax", 5)]
      (Some predicate_interface)
    = (zeros 4, Throw (main_error (Predicate.no_configurable_constant_named "tax")))
  ∧ (Predicate.setConfigurableConstants (zeros 4) [("tax", 5)]
       (Some predicate_interface)).1 = zeros 4.
Proof.
  destruct (setConfigurableConstants_undeclared (zeros 4) predicate_interface
              [("tax", 5)] "tax") as (Hfails & Hprefix & Hfirst).
  - vm_compute. left.
  - vm_compute. reflexivity.
  - split_and!.
    + exact Hfails.
    + apply (Hprefix [] 5 [] (zeros 4)).
      * reflexivity.
      * vm_compute. discriminate.
      * reflexivity.
    + apply (Hfirst 5 []). reflexivity.
Defined.

(** The claim C4 does not hold as stated.  With the declared [fee] before
    the undeclared [tax], the eight bytes of [fee] have been written when the
    call fails.  And the undeclared name [constructor], which every object
    inherits, makes the call fail with the TypeError of the coder, not with
    the error that names it. *)
Lemma setConfigurableConstants_writes_before_failing :
  Abi.configurables predicate_interface !! "tax" = None
  ∧ Predicate.setConfigurableConstants (zeros 48) [("fee", 100); ("tax", 5)]
      (Some predicate_interface)
    = (<[47%nat := Byte.x64]> (zeros 48),
       Throw (main_error (Predicate.no_configurable_constant_named "tax")))
  ∧ (Predicate.setConfigurableConstants (zeros 48) [("fee", 100); ("tax", 5)]
       (Some predicate_interface)).1 ≠ zeros 48
  ∧ Abi.configurables predicate_interface !! "constructor" = None
  ∧ Predicate.setConfigurableConstants (zeros 48) [("constructor", 5)]
      (Some predicate_interface)
    = (zeros 48, Throw (main_error Predicate.fragment_type_undefined)).
Proof.
  split_and!.
  - vm_compute. reflexivity.
  - vm_compute. reflexivity.
  - vm_compute. discriminate.
  - vm_compute. reflexivity.
  - vm_compute. reflexivity.
Qed.

(** Patching [flag], then patching the result with nothing. *)
Lemma processPredicateData_empty_is_noop_witness :
  Predicate.processPredicateData [Byte.x00; Byte.x01; Byte.x00; Byte.x00]
    (Some predicate_abi) (Some [])
  = Ok ([Byte.x00; Byte.x01; Byte.x00; Byte.x00], Some [u64], Some predicate_interface)
  ∧ Predicate.processPredicateData [Byte.x00; Byte.x01; Byte.x00; Byte.x00]
      (Some predicate_abi) None
    = Ok ([Byte.x00; Byte.x01; Byte.x00; Byte.x00], Some [u64], Some predicate_interface).
Proof.
  apply (processPredicateData_empty_is_noop (zeros 4) (Some predicate_abi)
           (Some [("flag", 1)])).
  vm_compute. reflexivity.
Defined.

(** An ABI with a function [helper] only. *)
Lemma constructor_without_main_fails_witness :
  fails (Predicate.constructor (zeros 4) 0 (Some library_abi) None None false)
  ∧ fails (Predicate0.constructor (zeros 4) (Some library_abi) None).
Proof.
  destruct (constructor_without_main_fails library_abi) as [Hnew Hold].
  - intros abiInterface [= <-] f Hf. simpl in Hf.
    apply list_elem_of_singleton in Hf. by subst f.
  - split.
    + apply (Hnew (zeros 4) 0 None None false).
    + apply (Hold (zeros 4) None).
Defined.

(** The scenario of the specification: [transfer(to, amount)] called with
    [{amount: 500, to: addrA}]. *)
Example transfer_named_arguments :
  Contract._mapObjIntoArgsArray token transfer
    (Some [("amount", 500); ("to", addrA)])
  = Ok [addrA; 500].
Proof. vm_compute. reflexivity. Qed.

(** A fragment the ABI of the interface does not list: with two entries the
    comparator reads [indexOf] of [undefined]; with one it is never called. *)
Example unlisted_function_arguments :
  Contract._mapObjIntoArgsArray token
    {| Abi.name := "mint"; Abi.inputs := [u64] |}
    (Some [("amount", 500); ("to", addrA)])
  = Throw Contract.cannot_read_properties_of_undefined
  ∧ Contract._mapObjIntoArgsArray token
      {| Abi.name := "mint"; Abi.inputs := [u64] |} (Some [("amount", 500)])
    = Ok [500].
Proof. split; vm_compute; reflexivity. Qed.

Lemma mapObjIntoArgsArray_declared_order_witness :
  ∃ values,
    Contract._mapObjIntoArgsArray token transfer
      (Some [("amount", 500); ("to", addrA)]) = Ok values
    ∧ Contract._mapObjIntoArgsArray token transfer
        (Some [("to", addrA); ("amount", 500)]) = Ok values
    ∧ Forall2 (λ p v, Js.get [("amount", 500); ("to", addrA)] p = Some v)
        ["to"; "amount"] values.
Proof.
  apply (mapObjIntoArgsArray_declared_order token transfer ["to"; "amount"]
           [("amount", 500); ("to", addrA)] [("to", addrA); ("amount", 500)]).
  - vm_compute. reflexivity.
  - apply (bool_decide_unpack _). vm_compute. reflexivity.
  - apply (bool_decide_unpack _). vm_compute. reflexivity.
  - intros key. simpl. rewrite !elem_of_cons, !elem_of_nil. tauto.
  - apply Permutation_swap.
Defined.

(** The claim C1 does not hold as stated: two objects with the same entries,
    both with a key for every declared parameter, resolve to different
    vectors, and neither is the vector of the declared parameters. *)
Lemma mapObjIntoArgsArray_depends_on_entry_order :
  [("note", 2); ("memo", 1); ("to", addrA); ("amount", 500)]
    ≡ₚ [("memo", 1); ("note", 2); ("to", addrA); ("amount", 500)]
  ∧ Contract._mapObjIntoArgsArray token transfer
      (Some [("memo", 1); ("note", 2); ("to", addrA); ("amount", 500)])
    = Ok [1; 2; addrA; 500]
  ∧ Contract._mapObjIntoArgsArray token transfer
      (Some [("note", 2); ("memo", 1); ("to", addrA); ("amount", 500)])
    = Ok [2; 1; addrA; 500]
  ∧ Contract._mapObjIntoArgsArray token transfer
      (Some [("memo", 1); ("note", 2); ("to", addrA); ("amount", 500)])
    ≠ Contract._mapObjIntoArgsArray token transfer
        (Some [("note", 2); ("memo", 1); ("to", addrA); ("amount", 500)]).
Proof.
  split_and!.
  - apply Permutation_swap.
  - vm_compute. reflexivity.
  - vm_compute. reflexivity.
  - vm_compute. discriminate.
Qed.

(** [transfer] called with two arguments, and with one. *)
Lemma buildFunction_array_arity_witness :
  Contract.buildFunction token transfer (Contract.ArgsArray [addrA; 500])
  = Ok {| Contract.program := token; Contract.func := transfer;
          Contract.args := [addrA; 500];
          Contract.callData := big_endian 32 addrA ++ big_endian 8 500 |}
  ∧ Contract.buildFunction token transfer (Contract.ArgsArray [500])
    = Throw Contract.ArityMismatch.
Proof.
  destruct (buildFunction_array_arity (H := Sample.types) token transfer
              [addrA; 500]) as [Hsame _].
  destruct (buildFunction_array_arity (H := Sample.types) token transfer [500])
    as [_ Hdiffer].
  split.
  - apply Hsame; [reflexivity |]. vm_compute. reflexivity.
  - apply Hdiffer. simpl. lia.
Defined.

Lemma mapObjIntoArgsArray_no_validation_witness :
  ∃ values,
    Contract._mapObjIntoArgsArray token transfer
      (Some [("amount", 500); ("memo", 1)]) = Ok values
    ∧ values ≡ₚ [500; 1]
    ∧ (NoDup ["to"; "amount"] → Js.object_wf [("amount", 500); ("memo", 1)] →
       values = [1] ++ [500]).
Proof.
  apply (mapObjIntoArgsArray_no_validation token transfer ["to"; "amount"]
           [("amount", 500); ("memo", 1)]).
  vm_compute. reflexivity.
Defined.

(** The claim C7 does not hold as stated: a key that is no parameter and a
    parameter without a key both leave the resolution returning. *)
Lemma mapObjIntoArgsArray_accepts_any_keys :
  ("memo" ∉ ["to"; "amount"])
  ∧ Contract._mapObjIntoArgsArray token transfer
      (Some [("amount", 500); ("to", addrA); ("memo", 1)])
    = Ok [1; addrA; 500]
  ∧ ("amount" ∉ Js.keys [("to", addrA)])
  ∧ Contract._mapObjIntoArgsArray token transfer (Some [("to", addrA)])
    = Ok [addrA].
Proof.
  split_and!.
  - rewrite !elem_of_cons, elem_of_nil. intros [? | [? | []]]; discriminate.
  - vm_compute. reflexivity.
  - simpl. rewrite elem_of_cons, elem_of_nil. intros [? | []]; discriminate.
  - vm_compute. reflexivity.
Qed.

End samples.

(** * Further properties of the two classes *)

(** ** Runs of the loop over the configurable constants *)

Section runs.
Context `{AbiCoder}.
Implicit Types bytes mutatedBytes : Js.Uint8Array.
Implicit Types entries : Js.object InputValue.
Implicit Types abiInterface : Abi.Interface.

(** An entry can be written into a buffer of [n] bytes: its name is declared,
    the coder accepts its value, and the encoded bytes lie within the buffer. *)
Local Abbreviation writable abiInterface n entry :=
  (∃ c encoded,
     Abi.configurables abiInterface !! entry.1 = Some c
     ∧ encode (Abi.fragmentType c) entry.2 = Ok encoded
     ∧ 0 ≤ Abi.offset c
     ∧ Abi.offset c + Z.of_nat (length encoded) ≤ Z.of_nat n).

(** The index [i] lies outside the bytes an entry would write. *)
Local Abbreviation outside abiInterface entry i :=
  (∀ c encoded,
     Abi.configurables abiInterface !! entry.1 = Some c →
     encode (Abi.fragmentType c) entry.2 = Ok encoded →
     ¬ (Abi.offset c ≤ Z.of_nat i < Abi.offset c + Z.of_nat (length encoded))).

Lemma setConfigurableConstant_Ok_inv abiInterface mutatedBytes entry mutatedBytes' :
  Predicate.setConfigurableConstant abiInterface mutatedBytes entry = Ok mutatedBytes' →
  ∃ c encoded,
    Abi.configurables abiInterface !! entry.1 = Some c
    ∧ encode (Abi.fragmentType c) entry.2 = Ok encoded
    ∧ Js.set mutatedBytes encoded (Abi.offset c) = Ok mutatedBytes'.
Proof.
  destruct entry as [key value]. unfold Predicate.setConfigurableConstant.
  destruct (Abi.configurables abiInterface !! key) as [c |] eqn:Hc;
    [| by case_bool_decide].
  destruct (encode (Abi.fragmentType c) value) as [encoded | e] eqn:Henc; [| done].
  simpl. destruct (Js.set mutatedBytes encoded (Abi.offset c)) eqn:Hset; [| done].
  intros [= <-]. by exists c, encoded.
Qed.

Lemma setConfigurableConstant_succeeds abiInterface mutatedBytes entry :
  succeeds (Predicate.setConfigurableConstant abiInterface mutatedBytes entry)
  ↔ writable abiInterface (length mutatedBytes) entry.
Proof.
  split.
  - intros [b' (c & encoded & Hc & Henc & Hset)%setConfigurableConstant_Ok_inv].
    apply set_Ok_inv in Hset as (Hlo & Hhi & _). exists c, encoded. split_and!; done.
  - intros (c & encoded & Hc & Henc & Hlo & Hhi). destruct entry as [key value].
    rewrite (setConfigurableConstant_Ok _ _ _ _ _ _ Hc Henc).
    rewrite (set_in_range _ _ _ Hlo Hhi). by eexists.
Qed.

(** Whether the loop goes through depends on the length of the buffer only. *)
Lemma forEachConfigurable_succeeds abiInterface entries mutatedBytes :
  (Predicate.forEachConfigurable abiInterface entries mutatedBytes).2 = Ok ()
  ↔ Forall (λ entry, writable abiInterface (length mutatedBytes) entry) entries.
Proof.
  revert mutatedBytes. induction entries as [| entry entries IH]; intros b.
  - split; [constructor | done].
  - cbn [Predicate.forEachConfigurable]. rewrite Forall_cons.
    rewrite <- setConfigurableConstant_succeeds.
    destruct (Predicate.setConfigurableConstant abiInterface b entry) as [b' | e] eqn:Hset.
    + rewrite IH, (setConfigurableConstant_length _ _ _ _ Hset).
      split; [intros ?; split; [by eexists | done] | by intros [_ ?]].
    + simpl. split; [done | by intros [[? ?] _]].
Qed.

(** What the loop leaves alone, however it ends. *)
Lemma forEachConfigurable_untouched abiInterface entries mutatedBytes (i : nat) :
  (∀ entry, entry ∈ entries → outside abiInterface entry i) →
  (Predicate.forEachConfigurable abiInterface entries mutatedBytes).1 !! i
  = mutatedBytes !! i.
Proof.
  revert mutatedBytes. induction entries as [| entry entries IH]; intros b Hout;
    [done |].
  cbn [Predicate.forEachConfigurable].
  destruct (Predicate.setConfigurableConstant abiInterface b entry) as [b' | e] eqn:Hset;
    [| done].
  rewrite IH by (intros e He; apply Hout; by right).
  apply setConfigurableConstant_Ok_inv in Hset as (c & encoded & Hc & Henc & Hset).
  eapply set_lookup_outside; [done |]. apply (Hout entry); [by left | done | done].
Qed.

(** The first entry that throws ends the loop there. *)
Lemma forEachConfigurable_stops abiInterface pre entry post bytes mutatedBytes err :
  Predicate.forEachConfigurable abiInterface pre bytes = (mutatedBytes, Ok ()) →
  Predicate.setConfigurableConstant abiInterface mutatedBytes entry = Throw err →
  Predicate.forEachConfigurable abiInterface (pre ++ entry :: post) bytes
  = (mutatedBytes, Throw err).
Proof.
  intros Hpre Hentry. rewrite forEachConfigurable_app, Hpre.
  cbn [Predicate.forEachConfigurable]. by rewrite Hentry.
Qed.

End runs.

Section patching.
Context `{AbiCoder}.
Implicit Types bytes mutatedBytes patched : Js.Uint8Array.
Implicit Types entries : Js.object InputValue.
Implicit Types abiInterface : Abi.Interface.

(** The bytes two entries with different names would write do not overlap. *)
Local Abbreviation disjoint_slots abiInterface entries :=
  (∀ e1 e2 c1 c2 encoded1 encoded2,
     e1 ∈ entries → e2 ∈ entries → e1.1 ≠ e2.1 →
     Abi.configurables abiInterface !! e1.1 = Some c1 →
     Abi.configurables abiInterface !! e2.1 = Some c2 →
     encode (Abi.fragmentType c1) e1.2 = Ok encoded1 →
     encode (Abi.fragmentType c2) e2.2 = Ok encoded2 →
     Abi.offset c1 + Z.of_nat (length encoded1) ≤ Abi.offset c2
     ∨ Abi.offset c2 + Z.of_nat (length encoded2) ≤ Abi.offset c1).

(** X1. With a descriptor, the call returns normally exactly when the
    descriptor declares at least one configurable and every entry has a
    declared name, a value its coder accepts, and encoded bytes that lie
    within the buffer. *)
Theorem setConfigurableConstants_returns_iff bytes entries abiInterface :
  (Predicate.setConfigurableConstants bytes entries (Some abiInterface)).2 = Ok ()
  ↔ size (Abi.configurables abiInterface) ≠ 0%nat
    ∧ Forall (λ entry,
        ∃ c encoded,
          Abi.configurables abiInterface !! entry.1 = Some c
          ∧ encode (Abi.fragmentType c) entry.2 = Ok encoded
          ∧ 0 ≤ Abi.offset c
          ∧ Abi.offset c + Z.of_nat (length encoded) ≤ Z.of_nat (length bytes))
        entries.
Proof.
  rewrite <- forEachConfigurable_succeeds.
  unfold Predicate.setConfigurableConstants. case_bool_decide as Hsize.
  - simpl. split; [done | by intros [? _]].
  - destruct (Predicate.forEachConfigurable abiInterface entries bytes)
      as [b [[] | e]]; simpl; split; try done; by intros [_ ?].
Qed.

(** X2. However the call ends, with or without a descriptor, the buffer keeps
    its length and every byte that lies outside the slots of the entries is
    the byte that was there. *)
Theorem setConfigurableConstants_frame
  bytes entries (abiInterface : option Abi.Interface) :
  length (Predicate.setConfigurableConstants bytes entries abiInterface).1
  = length bytes
  ∧ ∀ i : nat,
      (∀ entry i0 c encoded,
         entry ∈ entries → abiInterface = Some i0 →
         Abi.configurables i0 !! entry.1 = Some c →
         encode (Abi.fragmentType c) entry.2 = Ok encoded →
         ¬ (Abi.offset c ≤ Z.of_nat i < Abi.offset c + Z.of_nat (length encoded))) →
      (Predicate.setConfigurableConstants bytes entries abiInterface).1 !! i
      = bytes !! i.
Proof.
  split; [apply setConfigurableConstants_length |].
  intros i Hout. unfold Predicate.setConfigurableConstants.
  destruct abiInterface as [i0 |]; [| done]. case_bool_decide; [done |].
  pose proof (forEachConfigurable_untouched i0 entries bytes i) as Hkeep.
  destruct (Predicate.forEachConfigurable i0 entries bytes) as [b r]. simpl in *.
  apply Hkeep. intros entry Hentry c encoded Hc Henc. by eapply Hout.
Qed.

(** X3. A value the coder rejects: the call fails with the coder's error,
    rethrown as the error of the function; the entries before it have been
    written and the entries after it are not looked at. *)
Theorem setConfigurableConstants_coder_failure
  bytes abiInterface pre key value post c e mutatedBytes :
  Abi.configurables abiInterface !! key = Some c →
  encode (Abi.fragmentType c) value = Throw e →
  Predicate.forEachConfigurable abiInterface pre bytes = (mutatedBytes, Ok ()) →
  Predicate.setConfigurableConstants bytes (pre ++ (key, value) :: post)
    (Some abiInterface)
  = (mutatedBytes,
     Throw (Predicate.Error_setting_configurable_constants (Predicate.coder_error e))).
Proof.
  intros Hc Henc Hpre.
  rewrite setConfigurableConstants_loop by by eapply declared_nonempty.
  rewrite (forEachConfigurable_stops _ _ _ _ _ _ (Predicate.coder_error e) Hpre);
    [done |].
  unfold Predicate.setConfigurableConstant. by rewrite Hc, Henc.
Qed.

(** After a run that went through, the slot of each entry holds its bytes,
    when the slots of different names do not overlap. *)
Lemma forEachConfigurable_slots abiInterface entries bytes patched :
  Js.object_wf entries →
  disjoint_slots abiInterface entries →
  Predicate.forEachConfigurable abiInterface entries bytes = (patched, Ok ()) →
  ∀ entry c encoded (j : nat),
    entry ∈ entries →
    Abi.configurables abiInterface !! entry.1 = Some c →
    encode (Abi.fragmentType c) entry.2 = Ok encoded →
    (j < length encoded)%nat →
    patched !! (Z.to_nat (Abi.offset c) + j)%nat = encoded !! j.
Proof.
  revert bytes. induction entries as [| e entries IH]; intros b Hwf Hdisj Hrun.
  - intros entry c encoded j Hentry. by apply elem_of_nil in Hentry.
  - unfold Js.object_wf, Js.keys in Hwf. rewrite fmap_cons in Hwf.
    apply NoDup_cons in Hwf as [Hnew Hwf].
    cbn [Predicate.forEachConfigurable] in Hrun.
    destruct (Predicate.setConfigurableConstant abiInterface b e) as [b' | err] eqn:Hset;
      [| done].
    apply setConfigurableConstant_Ok_inv in Hset
      as (c0 & encoded0 & Hc0 & Henc0 & Hset).
    intros entry c encoded j Hentry Hc Henc Hj.
    apply elem_of_cons in Hentry as [-> | Hentry].
    + rewrite Hc0 in Hc. injection Hc as <-.
      rewrite Henc0 in Henc. injection Henc as <-.
      pose proof (forEachConfigurable_untouched abiInterface entries b'
                    (Z.to_nat (Abi.offset c0) + j)) as Hkeep.
      rewrite Hrun in Hkeep. simpl in Hkeep. rewrite Hkeep.
      * by eapply set_lookup_inside.
      * intros e' He' c' encoded' Hc' Henc'.
        apply set_Ok_inv in Hset as (Hlo & _ & _).
        assert (e'.1 ≠ e.1) as Hne.
        { intros Heq. apply Hnew. rewrite <- Heq. by apply list_elem_of_fmap_2. }
        destruct (Hdisj e' e c' c0 encoded' encoded0) as [Hd | Hd];
          [by right | by left | done | done | done | done | done | lia | lia].
    + eapply (IH b'); [done | | done | done ..].
      intros e1 e2 ? ? ? ? He1 He2. apply Hdisj; by right.
Qed.

(** An index lies in the slot of an entry or outside the slots of all. *)
Lemma slot_or_outside abiInterface entries (i : nat) :
  (∃ entry c encoded,
     entry ∈ entries
     ∧ Abi.configurables abiInterface !! entry.1 = Some c
     ∧ encode (Abi.fragmentType c) entry.2 = Ok encoded
     ∧ Abi.offset c ≤ Z.of_nat i < Abi.offset c + Z.of_nat (length encoded))
  ∨ (∀ entry, entry ∈ entries →
       ∀ c encoded,
         Abi.configurables abiInterface !! entry.1 = Some c →
         encode (Abi.fragmentType c) entry.2 = Ok encoded →
         ¬ (Abi.offset c ≤ Z.of_nat i < Abi.offset c + Z.of_nat (length encoded))).
Proof.
  induction entries as [| e entries [(e' & c & encoded & He' & ?) | IH]].
  - right. intros entry Hentry. by apply elem_of_nil in Hentry.
  - left. exists e', c, encoded. split; [by right | done].
  - destruct (Abi.configurables abiInterface !! e.1) as [c |] eqn:Hc.
    2: { right. intros entry [-> | Hentry]%elem_of_cons; [congruence |].
         by apply IH. }
    destruct (encode (Abi.fragmentType c) e.2) as [encoded | err] eqn:Henc.
    2: { right. intros entry [-> | Hentry]%elem_of_cons; [| by apply IH].
         intros c' encoded' Hc'. congruence. }
    destruct (decide (Abi.offset c ≤ Z.of_nat i
                      < Abi.offset c + Z.of_nat (length encoded))) as [Hin | Hout].
    + left. exists e, c, encoded. split; [by left | done].
    + right. intros entry [-> | Hentry]%elem_of_cons; [| by apply IH].
      intros c' encoded' Hc' Henc'.
      rewrite Hc in Hc'. injection Hc' as <-.
      rewrite Henc in Henc'. by injection Henc' as <-.
Qed.

(** The loop over the same entries in another order, their slots not
    overlapping, goes through as well and leaves the same bytes. *)
Lemma forEachConfigurable_Permutation abiInterface entries entries' bytes patched :
  Js.object_wf entries →
  disjoint_slots abiInterface entries →
  entries' ≡ₚ entries →
  Predicate.forEachConfigurable abiInterface entries bytes = (patched, Ok ()) →
  Predicate.forEachConfigurable abiInterface entries' bytes = (patched, Ok ()).
Proof.
  intros Hwf Hdisj Hperm Hrun.
  assert (Js.object_wf entries') as Hwf'.
  { unfold Js.object_wf, Js.keys in *. by rewrite Hperm. }
  assert (disjoint_slots abiInterface entries') as Hdisj'.
  { intros e1 e2 ? ? ? ? He1 He2. rewrite Hperm in He1, He2. by apply Hdisj. }
  assert ((Predicate.forEachConfigurable abiInterface entries' bytes).2 = Ok ())
    as Hok'.
  { apply forEachConfigurable_succeeds. rewrite Hperm.
    apply forEachConfigurable_succeeds. by rewrite Hrun. }
  pose proof (forEachConfigurable_length abiInterface entries bytes) as Hlen.
  pose proof (forEachConfigurable_length abiInterface entries' bytes) as Hlen'.
  pose proof (forEachConfigurable_untouched abiInterface entries bytes) as Hkeep.
  pose proof (forEachConfigurable_untouched abiInterface entries' bytes) as Hkeep'.
  destruct (Predicate.forEachConfigurable abiInterface entries' bytes)
    as [patched' r] eqn:Hrun'.
  rewrite Hrun in Hlen, Hkeep. simpl in *. subst r. f_equal.
  apply list_eq. intros i.
  destruct (slot_or_outside abiInterface entries i)
    as [(e & c & encoded & He & Hc & Henc & Hin) | Hout].
  - replace i with (Z.to_nat (Abi.offset c) + (i - Z.to_nat (Abi.offset c)))%nat
      by lia.
    rewrite (forEachConfigurable_slots abiInterface entries' bytes
               patched' Hwf' Hdisj' Hrun' e c encoded);
      [| by rewrite Hperm | done | done | lia].
    rewrite (forEachConfigurable_slots abiInterface entries bytes
               patched Hwf Hdisj Hrun e c encoded); [done | done ..| lia].
  - rewrite Hkeep', Hkeep; [done | done |].
    intros entry Hentry. apply Hout. by rewrite <- Hperm.
Qed.

(** A run that went through, seen from [setConfigurableConstants]. *)
Lemma setConfigurableConstants_Ok_inv bytes entries abiInterface patched :
  Predicate.setConfigurableConstants bytes entries (Some abiInterface)
  = (patched, Ok ()) →
  size (Abi.configurables abiInterface) ≠ 0%nat
  ∧ Predicate.forEachConfigurable abiInterface entries bytes = (patched, Ok ()).
Proof.
  unfold Predicate.setConfigurableConstants. case_bool_decide; [done |].
  destruct (Predicate.forEachConfigurable abiInterface entries bytes) as [b [[] | e]];
    simpl; [| done].
  by intros [= <-].
Qed.

Lemma setConfigurableConstants_Ok bytes entries abiInterface patched :
  size (Abi.configurables abiInterface) ≠ 0%nat →
  Predicate.forEachConfigurable abiInterface entries bytes = (patched, Ok ()) →
  Predicate.setConfigurableConstants bytes entries (Some abiInterface)
  = (patched, Ok ()).
Proof.
  intros Hsize Hrun. rewrite setConfigurableConstants_loop by done.
  by rewrite Hrun.
Qed.

(** X4. With several entries whose slots do not overlap, a call that returns
    normally has put into the slot of every entry the coder's encoding of its
    value. *)
Theorem setConfigurableConstants_disjoint_slots
  bytes entries abiInterface patched :
  Js.object_wf entries →
  disjoint_slots abiInterface entries →
  Predicate.setConfigurableConstants bytes entries (Some abiInterface)
  = (patched, Ok ()) →
  ∀ entry c encoded (j : nat),
    entry ∈ entries →
    Abi.configurables abiInterface !! entry.1 = Some c →
    encode (Abi.fragmentType c) entry.2 = Ok encoded →
    (j < length encoded)%nat →
    patched !! (Z.to_nat (Abi.offset c) + j)%nat = encoded !! j.
Proof.
  intros Hwf Hdisj [_ Hrun]%setConfigurableConstants_Ok_inv.
  by eapply forEachConfigurable_slots.
Qed.

(** X5. The order of the entries does not matter when their slots do not
    overlap: a value set with the same entries in another order patches the
    buffer to the same bytes. *)
Theorem setConfigurableConstants_order_irrelevant
  bytes entries entries' abiInterface patched :
  Js.object_wf entries →
  disjoint_slots abiInterface entries →
  entries' ≡ₚ entries →
  Predicate.setConfigurableConstants bytes entries (Some abiInterface)
  = (patched, Ok ()) →
  Predicate.setConfigurableConstants bytes entries' (Some abiInterface)
  = (patched, Ok ()).
Proof.
  intros Hwf Hdisj Hperm [Hsize Hrun]%setConfigurableConstants_Ok_inv.
  apply setConfigurableConstants_Ok; [done |].
  by eapply forEachConfigurable_Permutation.
Qed.

End patching.

Section repatching.
Context `{AbiCoder}.
Implicit Types bytes mutatedBytes patched : Js.Uint8Array.
Implicit Types entries : Js.object InputValue.
Implicit Types abiInterface : Abi.Interface.

(** On buffers of [n] bytes, the loop either leaves the byte at [i] as it
    finds it, or puts there a byte that does not depend on the buffer. *)
Lemma forEachConfigurable_reads abiInterface entries (n i : nat) :
  (∀ x, length x = n →
     (Predicate.forEachConfigurable abiInterface entries x).1 !! i = x !! i)
  ∨ (∀ x x', length x = n → length x' = n →
       (Predicate.forEachConfigurable abiInterface entries x).1 !! i
       = (Predicate.forEachConfigurable abiInterface entries x').1 !! i).
Proof.
  induction entries as [| [key value] entries IH]; [by left |].
  cbn [Predicate.forEachConfigurable]. unfold Predicate.setConfigurableConstant.
  destruct (Abi.configurables abiInterface !! key) as [c |];
    [| left; intros x Hx; by case_bool_decide].
  destruct (encode (Abi.fragmentType c) value) as [encoded | e]; [| by left].
  cbn [mbind result_bind rethrow].
  destruct (decide (0 ≤ Abi.offset c
                    ∧ Abi.offset c + Z.of_nat (length encoded) ≤ Z.of_nat n))
    as [[Hlo Hhi] | Hrange].
  - assert (∀ x, length x = n →
              ∃ x2, Js.set x encoded (Abi.offset c) = Ok x2 ∧ length x2 = n)
      as Hset.
    { intros x Hx. eexists. split; [apply set_in_range; lia |].
      rewrite !length_app, length_take, length_drop. lia. }
    destruct IH as [IH | IH].
    + destruct (decide (Abi.offset c ≤ Z.of_nat i
                        < Abi.offset c + Z.of_nat (length encoded))) as [Hin | Hout].
      * right. intros x x' Hx Hx'.
        destruct (Hset x Hx) as (x2 & Hx2 & Hlen2).
        destruct (Hset x' Hx') as (x2' & Hx2' & Hlen2').
        rewrite Hx2, Hx2'. cbn [rethrow]. rewrite !IH by done.
        replace i with (Z.to_nat (Abi.offset c) + (i - Z.to_nat (Abi.offset c)))%nat
          by lia.
        rewrite (set_lookup_inside _ _ _ _ _ Hx2) by lia.
        by rewrite (set_lookup_inside _ _ _ _ _ Hx2') by lia.
      * left. intros x Hx. destruct (Hset x Hx) as (x2 & Hx2 & Hlen2).
        rewrite Hx2. cbn [rethrow]. rewrite IH by done.
        by eapply set_lookup_outside.
    + right. intros x x' Hx Hx'.
      destruct (Hset x Hx) as (x2 & Hx2 & Hlen2).
      destruct (Hset x' Hx') as (x2' & Hx2' & Hlen2').
      rewrite Hx2, Hx2'. cbn [rethrow]. by apply IH.
  - left. intros x Hx. unfold Js.set.
    rewrite bool_decide_eq_true_2 by lia. done.
Qed.

(** Running the loop again on the buffer it produced changes nothing. *)
Lemma forEachConfigurable_again abiInterface entries bytes patched :
  Predicate.forEachConfigurable abiInterface entries bytes = (patched, Ok ()) →
  Predicate.forEachConfigurable abiInterface entries patched = (patched, Ok ()).
Proof.
  revert bytes patched.
  induction entries as [| e entries IH]; intros b p Hrun.
  - simpl in Hrun. by simplify_eq.
  - cbn [Predicate.forEachConfigurable] in *.
    destruct (Predicate.setConfigurableConstant abiInterface b e) as [b2 | err] eqn:Hset;
      [| done].
    pose proof (setConfigurableConstant_length _ _ _ _ Hset) as Hlen2.
    pose proof (forEachConfigurable_length abiInterface entries b2) as Hlenp.
    rewrite Hrun in Hlenp. simpl in Hlenp.
    apply setConfigurableConstant_Ok_inv in Hset
      as (c & encoded & Hc & Henc & Hset).
    pose proof (set_Ok_inv _ _ _ _ Hset) as (Hlo & Hhi & _).
    destruct e as [key value]. simpl in Hc, Henc.
    rewrite (setConfigurableConstant_Ok _ _ _ _ _ _ Hc Henc).
    assert (∃ p2, Js.set p encoded (Abi.offset c) = Ok p2) as [p2 Hset'].
    { eexists. apply set_in_range; lia. }
    rewrite Hset'. cbn [rethrow].
    pose proof (set_length _ _ _ _ Hset') as Hlenp2.
    pose proof (IH b2 p Hrun) as Hagain.
    destruct (Predicate.forEachConfigurable abiInterface entries p2) as [q r] eqn:Hq.
    assert (r = Ok ()) as ->.
    { change r with (q, r).2. rewrite <- Hq.
      apply forEachConfigurable_succeeds. rewrite Hlenp2.
      apply forEachConfigurable_succeeds. by rewrite Hagain. }
    f_equal. apply list_eq. intros i.
    destruct (forEachConfigurable_reads abiInterface entries (length p) i) as [Hkeep | Hset_i].
    + pose proof (Hkeep p2 Hlenp2) as Hq_i. rewrite Hq in Hq_i. simpl in Hq_i.
      rewrite Hq_i.
      destruct (decide (Abi.offset c ≤ Z.of_nat i
                        < Abi.offset c + Z.of_nat (length encoded))) as [Hin | Hout].
      * pose proof (Hkeep b2 (eq_sym Hlenp)) as Hp_i. rewrite Hrun in Hp_i.
        simpl in Hp_i. rewrite Hp_i.
        replace i with (Z.to_nat (Abi.offset c) + (i - Z.to_nat (Abi.offset c)))%nat
          by lia.
        rewrite (set_lookup_inside _ _ _ _ _ Hset') by lia.
        by rewrite (set_lookup_inside _ _ _ _ _ Hset) by lia.
      * by eapply set_lookup_outside.
    + pose proof (Hset_i p2 p Hlenp2 eq_refl) as Hq_i.
      rewrite Hq, Hagain in Hq_i. done.
Qed.

(** X6. Applying a value set to a buffer that the same value set has already
    patched returns normally and leaves the buffer as it is, whether or not
    slots overlap. *)
Theorem setConfigurableConstants_idempotent bytes entries abiInterface patched :
  Predicate.setConfigurableConstants bytes entries (Some abiInterface)
  = (patched, Ok ()) →
  Predicate.setConfigurableConstants patched entries (Some abiInterface)
  = (patched, Ok ()).
Proof.
  intros [Hsize Hrun]%setConfigurableConstants_Ok_inv.
  apply setConfigurableConstants_Ok; [done |].
  by eapply forEachConfigurable_again.
Qed.

End repatching.

(** ** The identity of a predicate *)

Section identity.
Context `{AbiCoder, Identity}.
Implicit Types bytes : Js.Uint8Array.



End identity.



(** ** More on the construction of a predicate *)

Section construction_more.
Context `{AbiCoder, Identity}.
Implicit Types bytes : Js.Uint8Array.

(** With values to apply, [processPredicateData] is the ABI stage followed by
    [setConfigurableConstants] on a copy of the bytes. *)
Lemma processPredicateData_values bytes0 bytes jsonAbi predicateBytes0
  predicateTypes predicateInterface entry entries :
  Predicate.processPredicateData bytes0 jsonAbi None
  = Ok (predicateBytes0, predicateTypes, predicateInterface) →
  Predicate.processPredicateData bytes jsonAbi (Some (entry :: entries))
  = (let '(mutatedBytes, outcome) :=
       Predicate.setConfigurableConstants (arrayify bytes) (entry :: entries)
         predicateInterface in
     _ ← outcome; Ok (mutatedBytes, predicateTypes, predicateInterface)).
Proof.
  unfold Predicate.processPredicateData.
  destruct jsonAbi as [abi0 |].
  - destruct (new_Interface abi0) as [i | e]; [| done]. simpl.
    destruct (Js.find _ (Abi.fragments i)) as [mainFunction |]; [| done]. simpl.
    intros [= <- <- <-].
    by destruct (Predicate.setConfigurableConstants (arrayify bytes)
                   (entry :: entries) (Some i)) as [b [[] | e]].
  - simpl. by intros [= <- <- <-].
Qed.

(** X7. Values for configurable constants cannot be applied without declared
    configurables: without a JSON ABI the constructor throws the error of
    [setConfigurableConstants] about the missing ABI, and with an ABI that
    has a main function but declares no configurable it throws the one about
    there being none to set. *)
Theorem constructor_values_without_configurables
  bytes chainId provider entry entries flag :
  Predicate.constructor bytes chainId None provider (Some (entry :: entries)) flag
  = Throw (Predicate.Error_setting_configurable_constants
             Predicate.instantiated_without_json_ABI)
  ∧ ∀ abi0 abiInterface mainFunction,
      new_Interface abi0 = Ok abiInterface →
      mainFunction ∈ Abi.fragments abiInterface →
      Abi.name mainFunction = "main" →
      Abi.configurables abiInterface = ∅ →
      Predicate.constructor bytes chainId (Some abi0) provider
        (Some (entry :: entries)) flag
      = Throw (Predicate.Error_setting_configurable_constants
                 Predicate.no_configurable_constants_to_be_set).
Proof.
  split; [done |].
  intros abi0 i m Hnew Hm Hname Hnone.
  unfold Predicate.constructor, Predicate.processPredicateData.
  rewrite Hnew. simpl.
  destruct (Js.find _ (Abi.fragments i)) as [mainFunction |] eqn:Hfind.
  - simpl. unfold Predicate.setConfigurableConstants.
    rewrite Hnone, bool_decide_eq_true_2 by apply map_size_empty. done.
  - unfold Js.find in Hfind. apply fmap_None, list_find_None in Hfind.
    rewrite Forall_forall in Hfind. destruct (Hfind m Hm).
    by apply String.eqb_eq.
Qed.

(** X8. A predicate can be constructed again from the bytes it holds with
    the same ABI, chain and values: the second predicate holds the same
    bytes, types and interface and has the same address. *)
Theorem constructor_from_configured_bytes
  bytes chainId jsonAbi provider configurableConstants flag this provider' flag' :
  Predicate.constructor bytes chainId jsonAbi provider configurableConstants flag
  = Ok this →
  ∃ this',
    Predicate.constructor (Predicate.bytes this) chainId jsonAbi provider'
      configurableConstants flag' = Ok this'
    ∧ Predicate.bytes this' = Predicate.bytes this
    ∧ Predicate.address this' = Predicate.address this
    ∧ Predicate.jsonAbi this' = Predicate.jsonAbi this
    ∧ Predicate.interface this' = Predicate.interface this.
Proof.
  intros Hthis.
  assert (∃ t,
    Predicate.processPredicateData bytes jsonAbi configurableConstants
    = Ok (Predicate.bytes this, t, Predicate.interface this)
    ∧ Predicate.jsonAbi this = default [] t
    ∧ Predicate.address this
      = Address_fromB256 (getContractRoot (Predicate.bytes this) chainId))
    as (t & Hdata & Htypes & Haddr).
  { unfold Predicate.constructor in Hthis.
    destruct (Predicate.processPredicateData bytes jsonAbi configurableConstants)
      as [[[b t] i] | e]; [| done].
    simpl in Hthis. injection Hthis as <-. by exists t. }
  pose proof (processPredicateData_Ok_inv _ _ _ _ _ _ Hdata) as [Hagain Hbytes].
  assert (Predicate.processPredicateData (Predicate.bytes this) jsonAbi
            configurableConstants
          = Ok (Predicate.bytes this, t, Predicate.interface this)) as Hdata'.
  { destruct configurableConstants as [[| entry entries] |].
    - apply (Hagain (Predicate.bytes this)). by right.
    - rewrite (processPredicateData_values (Predicate.bytes this) _ _ _ _ _ _ _
                 (Hagain (Predicate.bytes this) None (or_introl eq_refl))).
      destruct (Predicate.interface this) as [i |]; [| done].
      apply setConfigurableConstants_Ok_inv in Hbytes as [Hsize Hrun].
      apply forEachConfigurable_again in Hrun.
      unfold arrayify.
      by rewrite (setConfigurableConstants_Ok _ _ _ _ Hsize Hrun).
    - apply (Hagain (Predicate.bytes this)). by left. }
  unfold Predicate.constructor. rewrite Hdata'. simpl.
  eexists. split; [done |]. simpl. by rewrite Haddr, Htypes.
Qed.

(** X9. Called without configurable constants, the constructor of the
    current snapshot does what the older one does, apart from the chain id
    in the address: both throw the same error, or both return, with the same
    bytes, types, data and interface. *)
Theorem constructor_snapshots_agree
  bytes chainId jsonAbi provider configurableConstants flag :
  configurableConstants = None ∨ configurableConstants = Some [] →
  match Predicate0.constructor bytes jsonAbi provider,
        Predicate.constructor bytes chainId jsonAbi provider
          configurableConstants flag with
  | Ok older, Ok newer =>
      Predicate.bytes newer = Predicate0.bytes older
      ∧ Predicate.jsonAbi newer = default [] (Predicate0.types older)
      ∧ Predicate.interface newer = Predicate0.interface older
      ∧ Predicate.predicateData newer = Predicate0.predicateData older
      ∧ Predicate.provider newer = Predicate0.provider older
      ∧ Predicate0.address older
        = Address_fromB256 (getContractRoot_legacy (Predicate0.bytes older))
      ∧ Predicate.address newer
        = Address_fromB256 (getContractRoot (Predicate.bytes newer) chainId)
  | Throw (Predicate0.ArgumentError fragments),
    Throw (Predicate.ArgumentError fragments') => fragments = fragments'
  | Throw (Predicate0.InterfaceError e), Throw (Predicate.InterfaceError e') =>
      e = e'
  | _, _ => False
  end.
Proof.
  intros Hnone.
  unfold Predicate0.constructor, Predicate.constructor,
    Predicate.processPredicateData.
  destruct jsonAbi as [abi0 |].
  - destruct (new_Interface abi0) as [i | e]; simpl; [| done].
    destruct (Js.find _ (Abi.fragments i)) as [mainFunction |]; simpl; [| done].
    by destruct Hnone as [-> | ->].
  - by destruct Hnone as [-> | ->].
Qed.

End construction_more.

(** ** Predicate data, from [setData] to the inputs of a request *)

Section data_flow.
Context `{AbiCoder, !ArgumentsCoder, Identity, !TransactionTypes, !Providers}.

Implicit Types inputs : list Tx.TransactionRequestInput.

Lemma populateInput_owned (this : Predicate.Predicate) c :
  hexlify (Tx.owner c) = Ok (Address_toB256 (Predicate.address this)) →
  Predicate.populateInput this (Tx.CoinInput c)
  = Ok (Tx.CoinInput {| Tx.owner := Tx.owner c;
                        Tx.predicate := Some (Predicate.bytes this);
                        Tx.predicateData := Some (Predicate.predicateData this);
                        Tx.coin_fields := Tx.coin_fields c |}).
Proof. intros Howner. simpl. rewrite Howner. simpl. by rewrite bool_decide_eq_true_2. Qed.

(** After a loop that went through, each input is what the callback made of
    it. *)
Lemma forEachInput_lookup (this : Predicate.Predicate) inputs inputs' (i : nat) input :
  Predicate.forEachInput this inputs = (inputs', Ok ()) →
  inputs !! i = Some input →
  ∃ input', Predicate.populateInput this input = Ok input'
            ∧ inputs' !! i = Some input'.
Proof.
  revert inputs' i. induction inputs as [| input0 inputs IH]; intros inputs' i;
    [done |].
  cbn [Predicate.forEachInput].
  destruct (Predicate.populateInput this input0) as [input1 | e] eqn:Hfirst;
    [| done].
  destruct (Predicate.forEachInput this inputs) as [rest outcome].
  intros [= <- ->] Hi. destruct i as [| i].
  - injection Hi as <-. by exists input1.
  - exact (IH rest i eq_refl Hi).
Qed.

(** X10. From construction to a request.  After the constructor and
    [setData] have returned, the data of the predicate are the encoding of
    the arguments against the types the constructor kept.  For a request
    that [transactionRequestify] accepts and whose coin inputs all have an
    owner that [hexlify] accepts, [populateTransactionPredicateData] returns,
    and a coin input whose owner is the root of the configured bytes comes
    back carrying those bytes and those data. *)
Theorem constructed_predicate_populates
  bytes chainId jsonAbi provider configurableConstants flag this args this'
  transactionRequestLike request inputs (i : nat) c :
  Predicate.constructor bytes chainId jsonAbi provider configurableConstants flag
  = Ok this →
  PredicateData.setData this args = Ok this' →
  transactionRequestify transactionRequestLike = Ok request →
  Tx.inputs request = Some inputs →
  (∀ c', Tx.CoinInput c' ∈ inputs → succeeds (hexlify (Tx.owner c'))) →
  inputs !! i = Some (Tx.CoinInput c) →
  hexlify (Tx.owner c)
  = Ok (Address_toB256
          (Address_fromB256 (getContractRoot (Predicate.bytes this) chainId))) →
  ∃ encoded request' inputs',
    encode_arguments (Predicate.jsonAbi this) args = Ok encoded
    ∧ Predicate.populateTransactionPredicateData this' transactionRequestLike
      = Ok request'
    ∧ Tx.inputs request' = Some inputs'
    ∧ inputs' !! i
      = Some (Tx.CoinInput
                {| Tx.owner := Tx.owner c;
                   Tx.predicate := Some (Predicate.bytes this);
                   Tx.predicateData := Some encoded;
                   Tx.coin_fields := Tx.coin_fields c |}).
Proof.
  intros (t & _ & Haddr)%constructor_Ok_inv Hdata Hrequest Hinputs Hcoins Hi Howner.
  unfold PredicateData.setData in Hdata.
  destruct (encode_arguments (Predicate.jsonAbi this) args) as [encoded | e];
    [| done].
  simpl in Hdata. injection Hdata as <-.
  exists encoded.
  unfold Predicate.populateTransactionPredicateData.
  rewrite Hrequest. simpl. rewrite Hinputs.
  match goal with
  | |- context [Predicate.forEachInput ?p inputs] =>
      pose proof (forEachInput_succeeds p inputs) as Hok;
      pose proof (forEachInput_lookup p inputs) as Hlookup;
      destruct (Predicate.forEachInput p inputs) as [inputs' outcome]
  end.
  simpl in Hok. destruct Hok as [_ Hok]. rewrite (Hok Hcoins) in *.
  destruct (Hlookup inputs' i _ eq_refl Hi) as (input' & Hinput' & Hi').
  rewrite populateInput_owned in Hinput' by (simpl; by rewrite Howner, Haddr).
  injection Hinput' as <-.
  eexists _, inputs'. split; [done |]. split; [done |]. split; [done |].
  exact Hi'.
Qed.

(** X11. Populating inputs that another state of the same predicate has
    already populated leaves the inputs, and ends, as populating the
    original inputs does: the bytes and data last written are those of the
    last call, also when [hexlify] stops either loop. *)
Theorem populateInput_last_wins (this1 this2 : Predicate.Predicate) inputs :
  Predicate.address this1 = Predicate.address this2 →
  Predicate.forEachInput this2 (Predicate.forEachInput this1 inputs).1
  = Predicate.forEachInput this2 inputs.
Proof.
  intros Haddr. induction inputs as [| input inputs IH]; [done |].
  cbn [Predicate.forEachInput].
  destruct input as [c | c | m]; cbn [Predicate.populateInput].
  - destruct (hexlify (Tx.owner c)) as [owner | e] eqn:Howner;
      cbn [mbind result_bind].
    + rewrite Haddr.
      destruct (Predicate.forEachInput this1 inputs) as [rest1 outcome1].
      case_bool_decide as Hown;
        cbn [fst Predicate.forEachInput Predicate.populateInput Tx.owner];
        rewrite Howner; cbn [mbind result_bind];
        [rewrite bool_decide_eq_true_2 by done
        | rewrite bool_decide_eq_false_2 by done];
        simpl in IH; by rewrite IH.
    + cbn [fst Predicate.forEachInput Predicate.populateInput].
      by rewrite Howner.
  - destruct (Predicate.forEachInput this1 inputs) as [rest1 outcome1].
    cbn [fst Predicate.forEachInput Predicate.populateInput].
    simpl in IH. by rewrite IH.
  - destruct (Predicate.forEachInput this1 inputs) as [rest1 outcome1].
    cbn [fst Predicate.forEachInput Predicate.populateInput].
    simpl in IH. by rewrite IH.
Qed.

End data_flow.

(** ** More on the resolution of arguments *)

Section resolution_more.
Context `{AbiTypes}.
Context {Address Provider Account V : Type}.
Context `{!CallCoder V}.
Implicit Types this : Contract.Contract Address Provider Account.
Implicit Types func : Abi.FunctionFragment.
Implicit Types obj : Js.object V.

(** A comparator that throws is fatal to a sort with anything to compare. *)
Lemma sort_throwing {E} (e : E) (l : list (string * V)) :
  Js.sort (λ _ _, Throw e) l
  = if decide (length l < 2)%nat then Ok l else Throw e.
Proof.
  induction l as [| x l IH]; [done |].
  change (Js.sort (λ _ _ : string * V, Throw e) (x :: l))
    with (sorted ← Js.sort (λ _ _ : string * V, Throw e) l;
          Js.sort_insert (λ _ _, Throw e) x sorted).
  rewrite IH. destruct l as [| y [| z l]]; [done | done |].
  rewrite !decide_False by (simpl; lia). done.
Qed.

(** X12. A fragment that the ABI of the interface does not list (or an
    interface without a flat ABI): an object with fewer than two entries
    resolves to its values, and any larger object makes the resolution throw
    the type error of reading [indexOf] of [undefined]. *)
Theorem mapObjIntoArgsArray_unlisted this func obj :
  Contract.orderedArgNames this func = None →
  Contract._mapObjIntoArgsArray this func (Some obj)
  = if decide (length obj < 2)%nat then Ok (obj.*2)
    else Throw Contract.cannot_read_properties_of_undefined.
Proof.
  intros Hnone. unfold Contract._mapObjIntoArgsArray. rewrite Hnone.
  change (Contract.compareEntries None)
    with (λ _ _ : string * V,
            @Throw Contract.TypeError Z Contract.cannot_read_properties_of_undefined).
  rewrite sort_throwing. by case_decide.
Qed.

(** X13. Whenever the resolution of an object returns, listed function or
    not, the vector holds the values of the entries of the object, each as
    often as it occurs there: nothing is dropped, added or defaulted. *)
Theorem mapObjIntoArgsArray_Permutation this func obj (values : list V) :
  Contract._mapObjIntoArgsArray this func (Some obj) = Ok values →
  values ≡ₚ obj.*2 ∧ length values = length obj.
Proof.
  unfold Contract._mapObjIntoArgsArray.
  destruct (Js.sort _ obj) as [sorted |] eqn:Hsorted; [| done].
  simpl. intros [= <-]. apply sort_Permutation in Hsorted.
  split; [by rewrite Hsorted |]. by rewrite length_fmap, Hsorted.
Qed.

(** X14. A call with named arguments builds the invocation that the call
    with the same values in declared order builds, when the keys of the
    object are exactly the declared names. *)
Theorem buildFunction_named_as_positional this func names obj :
  Contract.orderedArgNames this func = Some names →
  NoDup names → Js.object_wf obj →
  (∀ key, key ∈ Js.keys obj ↔ key ∈ names) →
  ∃ values,
    Forall2 (λ p v, Js.get obj p = Some v) names values
    ∧ Contract.buildFunction this func (Contract.ArgsObject obj)
      = Contract.buildFunction this func (Contract.ArgsArray values).
Proof.
  intros Hnames Hnd Hwf Hkeys. exists (omap (Js.get obj) names). split.
  - apply omap_get_covering. intros key. apply Hkeys.
  - unfold Contract.buildFunction.
    rewrite (mapObjIntoArgsArray_sorted this func names obj) by done.
    rewrite undeclared_nil; [done |]. intros key. apply Hkeys.
Qed.

End resolution_more.

(** * The further properties at work *)

Section more_samples.
Import Sample SampleCalls.
#[local] Existing Instances Sample.types Sample.coder Sample.identity
  SampleCalls.arguments SampleCalls.calls.

Local Abbreviation setting_error :=
  (@Predicate.Error_setting_configurable_constants Sample.types).

(** The entries [flag] and [fee] of the sample ABI write different bytes. *)
Lemma sample_slots_disjoint (v w : Z) :
  ∀ (e1 e2 : string * Z) c1 c2 (encoded1 encoded2 : Js.Uint8Array),
    e1 ∈ [("flag", v); ("fee", w)] → e2 ∈ [("flag", v); ("fee", w)] →
    e1.1 ≠ e2.1 →
    Abi.configurables predicate_interface !! e1.1 = Some c1 →
    Abi.configurables predicate_interface !! e2.1 = Some c2 →
    encode (Abi.fragmentType c1) e1.2 = Ok encoded1 →
    encode (Abi.fragmentType c2) e2.2 = Ok encoded2 →
    Abi.offset c1 + Z.of_nat (length encoded1) ≤ Abi.offset c2
    ∨ Abi.offset c2 + Z.of_nat (length encoded2) ≤ Abi.offset c1.
Proof.
  assert (Abi.configurables predicate_interface !! "flag" = Some (slot u8 1))
    as Hflag by (vm_compute; reflexivity).
  assert (Abi.configurables predicate_interface !! "fee" = Some (slot u64 40))
    as Hfee by (vm_compute; reflexivity).
  assert (∀ z (encoded : Js.Uint8Array),
            sample_encode u8 z = Ok encoded → length encoded = 1%nat) as Hu8.
  { intros z encoded. unfold sample_encode. case_bool_decide; [| done].
    by intros [= <-]. }
  assert (∀ z (encoded : Js.Uint8Array),
            sample_encode u64 z = Ok encoded → length encoded = 8%nat) as Hu64.
  { intros z encoded. unfold sample_encode. case_bool_decide; [| done].
    by intros [= <-]. }
  intros e1 e2 c1 c2 encoded1 encoded2 He1 He2 Hne Hc1 Hc2 Henc1 Henc2.
  apply elem_of_cons in He1 as [-> | He1%list_elem_of_singleton];
    apply elem_of_cons in He2 as [-> | He2%list_elem_of_singleton];
    subst; cbn [fst snd] in *; try done.
  - rewrite Hflag in Hc1. rewrite Hfee in Hc2.
    injection Hc1 as <-. injection Hc2 as <-.
    apply Hu8 in Henc1. apply Hu64 in Henc2. rewrite Henc1, Henc2.
    cbn [slot Abi.offset]. lia.
  - rewrite Hfee in Hc1. rewrite Hflag in Hc2.
    injection Hc1 as <-. injection Hc2 as <-.
    apply Hu64 in Henc1. apply Hu8 in Henc2. rewrite Henc1, Henc2.
    cbn [slot Abi.offset]. lia.
Qed.

Lemma setConfigurableConstants_frame_witness :
  length (Predicate.setConfigurableConstants (zeros 44) [("flag", 1); ("fee", 100)]
            (Some predicate_interface)).1 = length (zeros 44)
  ∧ (Predicate.setConfigurableConstants (zeros 44) [("flag", 1); ("fee", 100)]
       (Some predicate_interface)).1 !! 5%nat = zeros 44 !! 5%nat.
Proof.
  pose proof (setConfigurableConstants_frame (H := Sample.types) (zeros 44)
                [("flag", 1); ("fee", 100)] (Some predicate_interface))
    as [Hlen Hkeep].
  split; [exact Hlen |]. apply Hkeep.
  assert (Abi.configurables predicate_interface !! "flag" = Some (slot u8 1))
    as Hflag by (vm_compute; reflexivity).
  assert (Abi.configurables predicate_interface !! "fee" = Some (slot u64 40))
    as Hfee by (vm_compute; reflexivity).
  assert (sample_encode u8 1 = Ok [Byte.x01]) as Hone
    by (vm_compute; reflexivity).
  assert (sample_encode u64 100 = Ok (big_endian 8 100)) as Hhundred
    by (vm_compute; reflexivity).
  intros entry i0 c encoded Hentry [= <-] Hc Henc.
  apply elem_of_cons in Hentry as [-> | ->%list_elem_of_singleton];
    cbn [fst snd] in Hc, Henc.
  - rewrite Hflag in Hc. injection Hc as <-.
    cbn [slot Abi.fragmentType encode coder] in Henc.
    rewrite Hone in Henc. injection Henc as <-. cbn [slot Abi.offset length]. lia.
  - rewrite Hfee in Hc. injection Hc as <-.
    cbn [slot Abi.fragmentType encode coder] in Henc.
    rewrite Hhundred in Henc. injection Henc as <-. cbn [slot Abi.offset length]. lia.
Defined.

Lemma setConfigurableConstants_coder_failure_witness :
  Predicate.setConfigurableConstants (zeros 44) [("flag", 1); ("fee", -1)]
    (Some predicate_interface)
  = (<[1%nat := Byte.x01]> (zeros 44),
     Throw (setting_error (Predicate.coder_error value_out_of_range))).
Proof.
  apply (setConfigurableConstants_coder_failure (H := Sample.types) (zeros 44) predicate_interface
           [("flag", 1)] "fee" (-1) [] (slot u64 40) value_out_of_range).
  - vm_compute. reflexivity.
  - vm_compute. reflexivity.
  - vm_compute. reflexivity.
Defined.

Lemma setConfigurableConstants_disjoint_slots_witness :
  ∃ patched,
    Predicate.setConfigurableConstants (zeros 64) [("flag", 1); ("fee", 100)]
      (Some predicate_interface) = (patched, Ok ())
    ∧ patched !! (40 + 7)%nat = big_endian 8 100 !! 7%nat
    ∧ patched !! (1 + 0)%nat = big_endian 1 1 !! 0%nat.
Proof.
  eexists. split; [vm_compute; reflexivity |].
  split.
  - apply (setConfigurableConstants_disjoint_slots (H := Sample.types) (zeros 64)
             [("flag", 1); ("fee", 100)] predicate_interface _
             ltac:(apply (bool_decide_unpack _); vm_compute; reflexivity)
             (sample_slots_disjoint 1 100)
             ltac:(vm_compute; reflexivity)
             ("fee", 100) (slot u64 40) (big_endian 8 100) 7%nat).
    + right. left.
    + vm_compute. reflexivity.
    + vm_compute. reflexivity.
    + cbn [big_endian length fmap list_fmap seq]. lia.
  - apply (setConfigurableConstants_disjoint_slots (H := Sample.types) (zeros 64)
             [("flag", 1); ("fee", 100)] predicate_interface _
             ltac:(apply (bool_decide_unpack _); vm_compute; reflexivity)
             (sample_slots_disjoint 1 100)
             ltac:(vm_compute; reflexivity)
             ("flag", 1) (slot u8 1) (big_endian 1 1) 0%nat).
    + left.
    + vm_compute. reflexivity.
    + vm_compute. reflexivity.
    + cbn [big_endian length fmap list_fmap seq]. lia.
Defined.

Lemma setConfigurableConstants_order_irrelevant_witness :
  Predicate.setConfigurableConstants (zeros 64) [("fee", 100); ("flag", 1)]
    (Some predicate_interface)
  = (<[47%nat := Byte.x64]> (<[1%nat := Byte.x01]> (zeros 64)), Ok ()).
Proof.
  apply (setConfigurableConstants_order_irrelevant (H := Sample.types) (zeros 64)
           [("flag", 1); ("fee", 100)] [("fee", 100); ("flag", 1)]
           predicate_interface).
  - apply (bool_decide_unpack _). vm_compute. reflexivity.
  - apply (sample_slots_disjoint 1 100).
  - apply Permutation_swap.
  - vm_compute. reflexivity.
Defined.

Lemma setConfigurableConstants_idempotent_witness :
  Predicate.setConfigurableConstants
    (<[47%nat := Byte.x64]> (<[1%nat := Byte.x01]> (zeros 64)))
    [("flag", 1); ("fee", 100)] (Some predicate_interface)
  = (<[47%nat := Byte.x64]> (<[1%nat := Byte.x01]> (zeros 64)), Ok ()).
Proof.
  apply (setConfigurableConstants_idempotent (H := Sample.types) (zeros 64)).
  vm_compute. reflexivity.
Defined.

Lemma constructor_values_without_configurables_witness :
  Predicate.constructor (zeros 4) 0 None None (Some [("flag", 1)]) false
  = Throw (setting_error Predicate.instantiated_without_json_ABI)
  ∧ Predicate.constructor (zeros 4) 0 (Some plain_abi) None
      (Some [("flag", 1)]) false
    = Throw (setting_error Predicate.no_configurable_constants_to_be_set).
Proof.
  destruct (constructor_values_without_configurables (H := Sample.types)
              (zeros 4) 0 None ("flag", 1) [] false) as [Hnone Hplain].
  split; [exact Hnone |].
  eapply (Hplain plain_abi _ main_fragment).
  - reflexivity.
  - left.
  - reflexivity.
  - reflexivity.
Defined.

Lemma constructor_from_configured_bytes_witness :
  ∃ this this',
    Predicate.constructor (zeros 4) 7 (Some predicate_abi) None
      (Some [("flag", 1)]) false = Ok this
    ∧ Predicate.constructor (Predicate.bytes this) 7 (Some predicate_abi) None
        (Some [("flag", 1)]) true = Ok this'
    ∧ Predicate.bytes this' = Predicate.bytes this
    ∧ Predicate.address this' = Predicate.address this
    ∧ Predicate.jsonAbi this' = Predicate.jsonAbi this
    ∧ Predicate.interface this' = Predicate.interface this.
Proof.
  eexists.
  assert (Predicate.constructor (zeros 4) 7 (Some predicate_abi) None
            (Some [("flag", 1)]) false = Ok _) as Hthis by reflexivity.
  destruct (constructor_from_configured_bytes (H := Sample.types) _ _ _ _ _ _ _
              None true Hthis) as (this' & Hagain).
  exists this'. split; [exact Hthis | exact Hagain].
Defined.

Lemma constructor_snapshots_agree_witness :
  match Predicate0.constructor (zeros 4) (Some predicate_abi) None,
        Predicate.constructor (zeros 4) 7 (Some predicate_abi) None None false with
  | Ok older, Ok newer =>
      Predicate.bytes newer = Predicate0.bytes older
      ∧ Predicate.jsonAbi newer = default [] (Predicate0.types older)
      ∧ Predicate.interface newer = Predicate0.interface older
      ∧ Predicate.predicateData newer = Predicate0.predicateData older
      ∧ Predicate.provider newer = Predicate0.provider older
      ∧ Predicate0.address older
        = Address_fromB256 (getContractRoot_legacy (Predicate0.bytes older))
      ∧ Predicate.address newer
        = Address_fromB256 (getContractRoot (Predicate.bytes newer) 7)
  | Throw (Predicate0.ArgumentError fragments),
    Throw (Predicate.ArgumentError fragments') => fragments = fragments'
  | Throw (Predicate0.InterfaceError e), Throw (Predicate.InterfaceError e') =>
      e = e'
  | _, _ => False
  end.
Proof.
  apply (constructor_snapshots_agree (H := Sample.types) (zeros 4) 7
           (Some predicate_abi) None None false).
  left. reflexivity.
Defined.


Lemma mapObjIntoArgsArray_unlisted_witness :
  Contract._mapObjIntoArgsArray token mint
    (Some [("amount", 500); ("to", addrA)])
  = Throw Contract.cannot_read_properties_of_undefined
  ∧ Contract._mapObjIntoArgsArray token mint (Some [("amount", 500)])
    = Ok [500].
Proof.
  assert (Contract.orderedArgNames token mint = None) as Hmint
    by (vm_compute; reflexivity).
  split.
  - exact (mapObjIntoArgsArray_unlisted (H := Sample.types) token mint
             [("amount", 500); ("to", addrA)] Hmint).
  - exact (mapObjIntoArgsArray_unlisted (H := Sample.types) token mint
             [("amount", 500)] Hmint).
Defined.

Lemma mapObjIntoArgsArray_Permutation_witness :
  [1; addrA; 500] ≡ₚ [("amount", 500); ("to", addrA); ("memo", 1)].*2
  ∧ length [1; addrA; 500] = length [("amount", 500); ("to", addrA); ("memo", 1)].
Proof.
  apply (mapObjIntoArgsArray_Permutation (H := Sample.types) token transfer
           [("amount", 500); ("to", addrA); ("memo", 1)] [1; addrA; 500]).
  vm_compute. reflexivity.
Defined.

Lemma buildFunction_named_as_positional_witness :
  ∃ values,
    Forall2 (λ p v, Js.get [("amount", 500); ("to", addrA)] p = Some v)
      ["to"; "amount"] values
    ∧ Contract.buildFunction token transfer
        (Contract.ArgsObject [("amount", 500); ("to", addrA)])
      = Contract.buildFunction token transfer (Contract.ArgsArray values).
Proof.
  apply (buildFunction_named_as_positional (H := Sample.types) token transfer
           ["to"; "amount"] [("amount", 500); ("to", addrA)]).
  - vm_compute. reflexivity.
  - apply (bool_decide_unpack _). vm_compute. reflexivity.
  - apply (bool_decide_unpack _). vm_compute. reflexivity.
  - intros key. simpl. rewrite !elem_of_cons, !elem_of_nil. tauto.
Defined.

End more_samples.

Section tx_samples.
Import Sample SampleCalls SampleTx.
#[local] Existing Instances Sample.types Sample.coder SampleCalls.arguments
  SampleTx.identity SampleTx.transactions SampleTx.providers.

Lemma sample_owners_accepted c :
  Tx.CoinInput c ∈ [coin "0x00" 5; coin flagged 6] →
  succeeds (hexlify (Tx.owner c)).
Proof.
  intros [Hc | Hc%list_elem_of_singleton]%elem_of_cons;
    injection Hc as ->; by eexists.
Qed.

(** A request whose two coins have hex owners, the second the address of
    the predicate. *)
Lemma populateTransactionPredicateData_frame_witness :
  succeeds (Predicate.populateTransactionPredicateData
              (flagged_predicate (big_endian 8 9)) two_coins)
  ∧ ∃ request' request,
      Predicate.populateTransactionPredicateData
        (flagged_predicate (big_endian 8 9)) two_coins = Ok request'
      ∧ transactionRequestify two_coins = Ok request
      ∧ Tx.request_fields request' = Tx.request_fields request.
Proof.
  destruct (populateTransactionPredicateData_frame (H := Sample.types)
              (flagged_predicate (big_endian 8 9)) two_coins)
    as [Hreturns Hframe].
  assert (succeeds (Predicate.populateTransactionPredicateData
                      (flagged_predicate (big_endian 8 9)) two_coins))
    as Hok.
  { apply Hreturns. eexists. split; [reflexivity |].
    intros inputs c [= <-]. apply sample_owners_accepted. }
  split; [exact Hok |]. destruct Hok as [request' Hrequest'].
  destruct (Hframe request' Hrequest') as (request & Hrequest & Hfields & _).
  by exists request', request.
Defined.

(** The claim C9 does not hold as stated.  A script request whose second
    coin has an owner that is no hex string makes the method throw, after
    the first coin has been populated; and a request of an unknown type
    makes it throw at once. *)
Lemma populateTransactionPredicateData_throws :
  transactionRequestify odd_owner
  = Ok {| Tx.inputs := Some [coin flagged 6; coin "predicate" 7];
          Tx.request_fields := () |}
  ∧ Predicate.populateTransactionPredicateData (flagged_predicate []) odd_owner
    = Throw invalid_hexlify_value
  ∧ Predicate.forEachInput (flagged_predicate [])
      [coin flagged 6; coin "predicate" 7]
    = ([Tx.CoinInput
          {| Tx.owner := flagged;
             Tx.predicate := Some [Byte.x00; Byte.x01; Byte.x00; Byte.x00];
             Tx.predicateData := Some [];
             Tx.coin_fields := 6 |};
        coin "predicate" 7],
       Throw invalid_hexlify_value)
  ∧ Predicate.populateTransactionPredicateData (flagged_predicate [])
      ((7, []) : TransactionRequestLike)
    = Throw unknown_transaction_type.
Proof. split_and!; reflexivity. Qed.

(** A predicate with [flag] set is given the argument 9 and meets a request
    with two coins, the second of which it owns. *)
Lemma constructed_predicate_populates_witness :
  ∃ this this' encoded request inputs',
    Predicate.constructor (zeros 4) 0 (Some predicate_abi) None
      (Some [("flag", 1)]) false = Ok this
    ∧ PredicateData.setData this [9] = Ok this'
    ∧ encode_arguments (Predicate.jsonAbi this) [9] = Ok encoded
    ∧ Predicate.populateTransactionPredicateData this' two_coins = Ok request
    ∧ Tx.inputs request = Some inputs'
    ∧ inputs' !! 1%nat
      = Some (Tx.CoinInput
                {| Tx.owner := flagged;
                   Tx.predicate := Some (Predicate.bytes this);
                   Tx.predicateData := Some encoded;
                   Tx.coin_fields := 6 |}).
Proof.
  eexists _, _.
  match goal with
  | |- ∃ encoded request inputs', ?built = Ok ?this ∧ ?set = Ok ?this' ∧ _ =>
      assert (built = Ok this) as Hthis by reflexivity;
      assert (set = Ok this') as Hdata by reflexivity
  end.
  destruct (constructed_predicate_populates (H := Sample.types)
              (H0 := Sample.coder) (H1 := arguments) (H2 := SampleTx.identity)
              (H3 := transactions) (H4 := providers) _ _ _ _ _ _ _ _ _
              two_coins _ [coin "0x00" 5; coin flagged 6] 1 flagged_coin
              Hthis Hdata ltac:(reflexivity) ltac:(reflexivity)
              sample_owners_accepted ltac:(reflexivity) ltac:(reflexivity))
    as (encoded & request & inputs' & Henc & Hreq & Hinputs & Hcoin).
  exists encoded, request, inputs'. split_and!; done.
Defined.

Lemma populateInput_last_wins_witness :
  Predicate.forEachInput (flagged_predicate (big_endian 8 9))
    (Predicate.forEachInput (flagged_predicate [])
       [coin "0x00" 5; coin flagged 6; coin "predicate" 7]).1
  = Predicate.forEachInput (flagged_predicate (big_endian 8 9))
      [coin "0x00" 5; coin flagged 6; coin "predicate" 7].
Proof.
  apply (populateInput_last_wins (H := Sample.types)).
  reflexivity.
Defined.

End tx_samples.
